(** * Translation-catalog consistency scripts: a shallow embedding

    The development covers the two scripts of the repository:

    - [check_translation_consistency.py]: flattening of a catalog into dotted
      key paths, the duplicate-key walk, the cross-locale structural diff,
      the empty-value walk and the aggregate verdict ([Module Consistency]);
    - [validate_import_keys.py]: resolution of required dotted key paths and
      the per-catalog audit ([Module ImportKeys]).

    Python values produced by [json.load] are modelled by the inductive type
    [json]; Python [str] is a sequence of Unicode code points ([list N]);
    a [dict] is an association list in insertion order (iteration order of
    [dict.items()]), together with the predicate [unique_keys] that states
    the invariant every real [dict] satisfies. *)

From Stdlib Require Import Strings.String Strings.Ascii.
From stdpp Require Import base list sorting lexico gmap.

Set Default Proof Using "Type".
Local Open Scope N_scope.

(** ** Python values *)

(** A Python [str]: a sequence of code points. *)
Abbreviation str := (list N).

(** ASCII literals for examples and constants. *)
Definition lit (s : string) : str :=
  List.map N_of_ascii (list_ascii_of_string s).

(** A Python [float] as [json.load] can produce it. *)
Inductive pyfloat :=
| FFinite (mantissa exponent : Z)
| FInfinity (negative : bool)
| FNaN.

(** The result of [json.load].  [JNull] is Python's [None]. *)
#[local] Unset Elimination Schemes.
Inductive json :=
| JNull
| JBool (b : bool)
| JInt (z : Z)
| JFloat (f : pyfloat)
| JStr (s : str)
| JArr (elems : list json)
| JObj (items : list (str * json)).
#[local] Set Elimination Schemes.

(** [isinstance(v, dict)] *)
Definition is_dict (v : json) : bool :=
  match v with JObj _ => true | _ => false end.

(** [v is None] *)
Definition is_none (v : json) : bool :=
  match v with JNull => true | _ => false end.

(** [key in d] followed by [d[key]] on the entries of a [dict]. *)
Fixpoint dict_get (items : list (str * json)) (key : str) : option json :=
  match items with
  | [] => None
  | (k, v) :: rest => if decide (k = key) then Some v else dict_get rest key
  end.

(** The invariant of a Python [dict]: no key occurs twice in one mapping.
    Only mappings reachable through mappings matter to the scripts. *)
Fixpoint unique_keys (d : json) : bool :=
  match d with
  | JObj items =>
      bool_decide (NoDup items.*1) && forallb (λ kv, unique_keys kv.2) items
  | _ => true
  end.

(** ** Strings *)

Definition dot : N := 46.

(** [key_path.split('.')]: never empty, keeps empty segments. *)
Fixpoint split_dot (s : str) : list str :=
  match s with
  | [] => [[]]
  | c :: r =>
      if decide (c = dot) then [] :: split_dot r
      else match split_dot r with
           | h :: t => (c :: h) :: t
           | [] => [[c]]
           end
  end.

(** [str.isspace] on one code point (CPython's [_PyUnicode_IsWhitespace]). *)
Definition isspace (c : N) : bool :=
  ((9 <=? c) && (c <=? 13)) || ((28 <=? c) && (c <=? 32))
  || (c =? 133) || (c =? 160) || (c =? 5760)
  || ((8192 <=? c) && (c <=? 8202))
  || (c =? 8232) || (c =? 8233) || (c =? 8239) || (c =? 8287) || (c =? 12288).

Fixpoint lstrip (s : str) : str :=
  match s with
  | c :: r => if isspace c then lstrip r else s
  | [] => []
  end.

Definition rstrip (s : str) : str := reverse (lstrip (reverse s)).

(** [s.strip()] *)
Definition strip (s : str) : str := rstrip (lstrip s).

(** Standard output is taken to encode as UTF-8 (the scripts print ["✅"]
    and ["❌"]): [print(text)] raises [UnicodeEncodeError] exactly when [text]
    holds a surrogate code point (U+D800 to U+DFFF). *)
Definition is_surrogate (c : N) : bool := (55296 <=? c) && (c <=? 57343).

Definition encodable (text : str) : bool :=
  forallb (λ c, negb (is_surrogate c)) text.

(** ** Catalog files *)

(** Outcome of [open] + [json.load] on one path: the parsed document, or the
    exception raised. *)
Inductive loaded :=
| Loaded (data : json)
| LoadFailed (cause : str).

Definition de_path : str := lit "src/i18n/locales/de/translation.json".
Definition en_path : str := lit "src/i18n/locales/en/translation.json".

(** ** check_translation_consistency.py *)

Module Consistency.

(** [f"{prefix}.{key}" if prefix else key]: an empty [prefix] is falsy. *)
Definition current_key (prefix key : str) : str :=
  match prefix with
  | [] => key
  | _ => prefix ++ dot :: key
  end.

(** [get_all_keys(data, prefix)]: the body of the [for] loop contributes
    [current_key] and then, for a [dict] value, the keys of the value. *)
Fixpoint get_all_keys (data : json) (prefix : str) : list str :=
  match data with
  | JObj items =>
      items ≫= λ '(key, value),
        let current_key := current_key prefix key in
        current_key ::
          (if is_dict value then get_all_keys value current_key else [])
  | _ => []
  end.

(** [check_duplicate_keys(data, prefix, found_keys)].  The dictionary
    [found_keys] is shared by all recursive calls and mutated in place, so it
    is threaded through the walk and returned with the findings.  The default
    [found_keys=None] of the outermost call is the empty dictionary. *)
Fixpoint check_duplicate_keys (data : json) (prefix : str)
    (found_keys : gmap str bool) : list str * gmap str bool :=
  match data with
  | JObj items =>
      (fix loop (items : list (str * json)) (found_keys : gmap str bool) :=
         match items with
         | [] => ([], found_keys)
         | (key, value) :: rest =>
             let current_key := current_key prefix key in
             let '(here, found_keys) :=
               if decide (is_Some (found_keys !! current_key))
               then ([current_key], found_keys)
               else ([], <[current_key := true]> found_keys) in
             let '(below, found_keys) :=
               if is_dict value
               then check_duplicate_keys value current_key found_keys
               else ([], found_keys) in
             let '(after, found_keys) := loop rest found_keys in
             (here ++ below ++ after, found_keys)
         end) items found_keys
  | _ => ([], found_keys)
  end.

(** [check_empty_values(data, prefix, lang_name)], local to [main]. *)
Fixpoint check_empty_values (data : json) (prefix lang_name : str) : list str :=
  match data with
  | JObj items =>
      items ≫= λ '(key, value),
        let current_key := current_key prefix key in
        if is_dict value then check_empty_values value current_key lang_name
        else match value with
             | JStr s => if decide (strip s = []) then [current_key] else []
             | _ => []
             end
  | _ => []
  end.

(** *** The run: loading, report and verdict *)

Inductive lang := De | En.

(** One finding line of the final summary ([issues.append(...)]): which
    check, which catalog, how many findings. *)
Inductive issue :=
| IssueDuplicates (l : lang) (count : nat)
| IssueOnly (l : lang) (count : nat)
| IssueEmpty (l : lang) (count : nat).

(** What [main] prints, one constructor per [print] site; a finding list is
    carried by the line that announces it. *)
Inductive line :=
| LTitle
| LLoadError (cause : str)
| LKeyCount (l : lang) (count : nat)
| LDuplicatesTitle
| LDuplicates (l : lang) (dups : list str)
| LNoDuplicates (l : lang)
| LStructureTitle
| LCommonCount (count : nat)
| LOnlyCount (l : lang) (count : nat)
| LOnly (l : lang) (sorted_keys : list str)
| LEmptyTitle
| LEmpty (l : lang) (empty : list str)
| LNoEmpty (l : lang)
| LVerdictTitle
| LProblems (issues : list issue)
| LAllPassed.

(** [load_translations()]: both files inside one [try]; any exception is
    printed and turned into [(None, None)]. *)
Definition load_translations (fs : str → loaded) : list line * (json * json) :=
  match fs de_path with
  | Loaded de_data =>
      match fs en_path with
      | Loaded en_data => ([], (de_data, en_data))
      | LoadFailed e => ([LLoadError e], (JNull, JNull))
      end
  | LoadFailed e => ([LLoadError e], (JNull, JNull))
  end.

(** Lines 92-94: [only_de], [only_en], [common_keys], with the [-] and [&]
    of Python's built-in [set]. *)
Definition structural_diff (de_keys en_keys : gset str)
    : gset str * gset str * gset str :=
  (de_keys ∖ en_keys, en_keys ∖ de_keys, de_keys ∩ en_keys).

(** Code-point order of [str], as used by [sorted]. *)
Fixpoint str_leb (a b : str) : bool :=
  match a, b with
  | [], _ => true
  | _ :: _, [] => false
  | x :: a', y :: b' => (x <? y) || ((x =? y) && str_leb a' b')
  end.

Definition sorted (s : gset str) : list str :=
  merge_sort (λ a b, str_leb a b) (elements s).

(** A non-empty list or set is truthy. *)
Definition truthy {A} (l : list A) : bool :=
  match l with [] => false | _ => true end.

Definition truthy_set (s : gset str) : bool := truthy (elements s).

(** Lines 147-159: the summary is assembled from the six finding
    collections held in local variables. *)
Definition collect_issues (de_duplicates en_duplicates : list str)
    (only_de only_en : gset str) (de_empty en_empty : list str) : list issue :=
  (if truthy de_duplicates then [IssueDuplicates De (length de_duplicates)] else [])
  ++ (if truthy en_duplicates then [IssueDuplicates En (length en_duplicates)] else [])
  ++ (if truthy_set only_de then [IssueOnly De (size only_de)] else [])
  ++ (if truthy_set only_en then [IssueOnly En (size only_en)] else [])
  ++ (if truthy de_empty then [IssueEmpty De (length de_empty)] else [])
  ++ (if truthy en_empty then [IssueEmpty En (length en_empty)] else []).

(** Lines 161-167. *)
Definition verdict (issues : list issue) : line :=
  if truthy issues then LProblems issues else LAllPassed.

(** [main()]: everything it prints, in order.  It returns [None] on every
    path. *)
Definition main (fs : str → loaded) : list line :=
  let '(load_out, (de_data, en_data)) := load_translations fs in
  [LTitle] ++ load_out ++
  if is_none de_data || is_none en_data then []
  else
    let de_keys : gset str := list_to_set (get_all_keys de_data []) in
    let en_keys : gset str := list_to_set (get_all_keys en_data []) in
    let de_duplicates := (check_duplicate_keys de_data [] ∅).1 in
    let en_duplicates := (check_duplicate_keys en_data [] ∅).1 in
    let '(only_de, only_en, common_keys) := structural_diff de_keys en_keys in
    let de_empty := check_empty_values de_data [] (lit "Deutsch") in
    let en_empty := check_empty_values en_data [] (lit "Englisch") in
    let issues :=
      collect_issues de_duplicates en_duplicates only_de only_en
        de_empty en_empty in
    [LKeyCount De (size de_keys); LKeyCount En (size en_keys);
     LDuplicatesTitle;
     if truthy de_duplicates then LDuplicates De de_duplicates
     else LNoDuplicates De;
     if truthy en_duplicates then LDuplicates En en_duplicates
     else LNoDuplicates En;
     LStructureTitle;
     LCommonCount (size common_keys);
     LOnlyCount De (size only_de); LOnlyCount En (size only_en)]
    ++ (if truthy_set only_de then [LOnly De (sorted only_de)] else [])
    ++ (if truthy_set only_en then [LOnly En (sorted only_en)] else [])
    ++ [LEmptyTitle;
        if truthy de_empty then LEmpty De de_empty else LNoEmpty De;
        if truthy en_empty then LEmpty En en_empty else LNoEmpty En;
        LVerdictTitle;
        verdict issues].

End Consistency.

(** ** validate_import_keys.py *)

Module ImportKeys.

(** The global list of keys to look up. *)
Definition required_keys : list str := lit <$> [
  "import.options.merge_strategy_description";
  "import.options.basic_options";
  "import.options.basic_options_description";
  "import.options.advanced_options_description";
  "import.options.summary_description";
  "import.progress.validation";
  "import.progress.validation_description";
  "import.progress.backup";
  "import.progress.backup_description";
  "import.progress.import";
  "import.progress.import_description";
  "import.progress.finalize";
  "import.progress.finalize_description";
  "import.dialog.progress_aria_label";
  "import.card.toggle_expand";
  "import.card.options_count";
  "import.preview.toggle_card";
  "import.preview.conflicts_subtitle";
  "import.preview.no_conflicts";
  "import.preview.stops_subtitle";
  "import.preview.view_all";
  "import.categories.settings";
  "import.categories.safety";
  "import.categories.filtering";
  "import.categories.layout";
  "import.categories.default";
  "import.loading.dialog";
  "import.loading.confirmation";
  "import.loading.preview";
  "import.loading.options";
  "import.loading.component_error";
  "import.loading.unknown_error"
]%string.

(** The [for key in keys] loop of [get_nested_value]; [return None] is
    [JNull]. *)
Fixpoint get_nested_loop (current : json) (keys : list str) : json :=
  match keys with
  | [] => current
  | key :: keys =>
      match current with
      | JObj items =>
          match dict_get items key with
          | Some value => get_nested_loop value keys
          | None => JNull
          end
      | _ => JNull
      end
  end.

(** [get_nested_value(data, key_path)] *)
Definition get_nested_value (data : json) (key_path : str) : json :=
  get_nested_loop data (split_dot key_path).

Inductive line :=
| LFileTitle (lang_name : str)
| LFound (key : str) (value : json)
| LMissing (key : str)
| LSummary (lang_name : str) (found total missing : nat)
| LReadError (file_path cause : str)
| LOverview (total de_found en_found both_found : nat)
| LOnlyDe (keys : gset str)
| LOnlyEn (keys : gset str)
| LBothMissing (keys : gset str)
| LPrintFailed (file_path : str) (failed : line).

(** The [for key in required_keys] loop of [check_translation_file]:
    printed lines, [found_keys], [missing_keys]. *)
Fixpoint check_keys (data : json) (required : list str)
    : list line * (list str * list str) :=
  match required with
  | [] => ([], ([], []))
  | key :: rest =>
      let value := get_nested_value data key in
      let '(out, (found_keys, missing_keys)) := check_keys data rest in
      if negb (is_none value)
      then (LFound key value :: out, (key :: found_keys, missing_keys))
      else (LMissing key :: out, (found_keys, key :: missing_keys))
  end.

(** Whether the [print] of a line of the [try] block returns.  In
    [f"... '{value}'"] a [str] value is written as it is; any other value is
    written through [repr], which escapes surrogates. *)
Definition printable (l : line) : bool :=
  match l with
  | LFileTitle lang_name => encodable lang_name
  | LFound key value =>
      encodable key
      && match value with JStr s => encodable s | _ => true end
  | LMissing key => encodable key
  | LSummary lang_name _ _ _ => encodable lang_name
  | _ => true
  end.

(** Printing lines in order until a [print] raises: the lines printed, and
    the line whose [print] raised, if any. *)
Fixpoint print_all (lines : list line) : list line * option line :=
  match lines with
  | [] => ([], None)
  | l :: rest =>
      if printable l
      then let '(printed, failed) := print_all rest in (l :: printed, failed)
      else ([], Some l)
  end.

(** The [try] block of [check_translation_file] after the load, when no
    [print] raises: the lines printed and the two lists returned. *)
Definition report (data : json) (required : list str) (lang_name : str)
    : list line * (list str * list str) :=
  let '(out, (found_keys, missing_keys)) := check_keys data required in
  ([LFileTitle lang_name] ++ out
   ++ [LSummary lang_name (length found_keys) (length required)
         (length missing_keys)],
   (found_keys, missing_keys)).

(** [check_translation_file(file_path, lang_name)], with the list of keys
    as a parameter; the script passes the global [required_keys].  The
    [try] encloses the load, the loop and every [print]: an exception of any
    of them ends in the [except] branch, which prints a diagnostic and returns
    [[], required_keys].  [LPrintFailed] is that diagnostic for the
    [UnicodeEncodeError] of a [print]; the diagnostic itself is made of the
    path and of the text of the exception, both ASCII in the script. *)
Definition check_translation_file (required : list str)
    (fs : str → loaded) (file_path lang_name : str)
    : list line * (list str * list str) :=
  match fs file_path with
  | Loaded data =>
      let '(lines, result) := report data required lang_name in
      match print_all lines with
      | (printed, None) => (printed, result)
      | (printed, Some failed) =>
          (printed ++ [LPrintFailed file_path failed], ([], required))
      end
  | LoadFailed e => ([LReadError file_path e], ([], required))
  end.

(** [main()] of the script, over a given list of keys. *)
Definition main_with (required : list str) (fs : str → loaded)
    : list line :=
  let '(de_out, (de_found, de_missing)) :=
    check_translation_file required fs de_path (lit "Deutsche") in
  let '(en_out, (en_found, en_missing)) :=
    check_translation_file required fs en_path (lit "Englische") in
  let de_set : gset str := list_to_set de_found in
  let en_set : gset str := list_to_set en_found in
  let both_found := de_set ∩ en_set in
  let only_de := de_set ∖ en_set in
  let only_en := en_set ∖ de_set in
  let both_missing : gset str :=
    list_to_set de_missing ∩ list_to_set en_missing in
  de_out ++ en_out
  ++ [LOverview (length required) (length de_found) (length en_found)
        (size both_found)]
  ++ (if Consistency.truthy_set only_de then [LOnlyDe only_de] else [])
  ++ (if Consistency.truthy_set only_en then [LOnlyEn only_en] else [])
  ++ (if Consistency.truthy_set both_missing then [LBothMissing both_missing]
      else []).

Definition main : (str → loaded) → list line :=
  main_with required_keys.

End ImportKeys.

(** ** Vocabulary of the specification *)

(** Every key of every mapping reached through mappings, in iteration order
    and depth first, as the chain of keys that leads to it from the root,
    with the value stored under it. *)
Fixpoint nodes (d : json) : list (list str * json) :=
  match d with
  | JObj items =>
      items ≫= λ '(key, value),
        ([key], value) :: (prod_map (cons key) id <$> nodes value)
  | _ => []
  end.

(** A chain of keys written as a dotted key path. *)
Fixpoint join_dot (chain : list str) : str :=
  match chain with
  | [] => []
  | key :: rest =>
      match rest with
      | [] => key
      | _ => key ++ dot :: join_dot rest
      end
  end.

(** Indexing into a tree level by level: [Some v] when every segment is
    found, [None] when a segment is absent or the node reached is not a
    mapping. *)
Inductive index_path : json → list str → option json → Prop :=
| index_done d :
    index_path d [] (Some d)
| index_not_container d key keys :
    is_dict d = false → index_path d (key :: keys) None
| index_absent items key keys :
    dict_get items key = None → index_path (JObj items) (key :: keys) None
| index_step items key keys value r :
    dict_get items key = Some value →
    index_path value keys r →
    index_path (JObj items) (key :: keys) r.

(** Every key of every mapping reached through mappings satisfies [P]. *)
Fixpoint all_keys (P : str → bool) (d : json) : bool :=
  match d with
  | JObj items => forallb (λ kv, P kv.1 && all_keys P kv.2) items
  | _ => true
  end.

(** No key contains the separator. *)
Definition dotfree_keys : json → bool :=
  all_keys (λ key, bool_decide (dot ∉ key)).

(** No key of the root mapping is the empty string. *)
Definition top_keys_nonempty (d : json) : bool :=
  match d with
  | JObj items => forallb (λ kv, bool_decide (kv.1 ≠ [])) items
  | _ => true
  end.

(** A string made of whitespace only (the empty string included). *)
Definition whitespace_only (v : json) : Prop :=
  match v with
  | JStr s => Forall (λ c, isspace c = true) s
  | _ => False
  end.

#[global] Instance whitespace_only_dec v : Decision (whitespace_only v).
Proof. destruct v; simpl; apply _. Defined.

(** The occurrences in [l] of elements that occur in [before] or earlier
    in [l]. *)
Fixpoint earlier_repeats (before l : list str) : list str :=
  match l with
  | [] => []
  | x :: rest =>
      (if decide (x ∈ before) then [x] else [])
      ++ earlier_repeats (before ++ [x]) rest
  end.

(** The occurrences in [l] of elements that already occur at an earlier
    position of [l]. *)
Definition repeated_occurrences (l : list str) : list str :=
  omap (λ '(i, x), if decide (x ∈ take i l) then Some x else None)
    (imap pair l).

(** Number of occurrences of [p] in [l]. *)
Definition occurrences (p : str) (l : list str) : nat :=
  length (filter (λ q, q = p) l).


(** The six finding collections of one run. *)
Record findings := {
  de_duplicates : list str;
  en_duplicates : list str;
  only_de : gset str;
  only_en : gset str;
  de_empty : list str;
  en_empty : list str
}.

(** The findings [main] collects from two catalogs, each check run once. *)
Definition collected (de_data en_data : json) : findings :=
  let de_keys : gset str := list_to_set (Consistency.get_all_keys de_data []) in
  let en_keys : gset str := list_to_set (Consistency.get_all_keys en_data []) in
  {| de_duplicates := (Consistency.check_duplicate_keys de_data [] ∅).1;
     en_duplicates := (Consistency.check_duplicate_keys en_data [] ∅).1;
     only_de := (Consistency.structural_diff de_keys en_keys).1.1;
     only_en := (Consistency.structural_diff de_keys en_keys).1.2;
     de_empty := Consistency.check_empty_values de_data [] (lit "Deutsch");
     en_empty := Consistency.check_empty_values en_data [] (lit "Englisch") |}.

Definition issues_of (f : findings) : list Consistency.issue :=
  Consistency.collect_issues f.(de_duplicates) f.(en_duplicates)
    f.(only_de) f.(only_en) f.(de_empty) f.(en_empty).

Definition no_findings (f : findings) : Prop :=
  f.(de_duplicates) = [] ∧ f.(en_duplicates) = []
  ∧ f.(only_de) = ∅ ∧ f.(only_en) = ∅
  ∧ f.(de_empty) = [] ∧ f.(en_empty) = [].

(** The [for] loop of [check_duplicate_keys] over the entries of one
    mapping. *)
Fixpoint duplicate_loop (prefix : str) (items : list (str * json))
    (found_keys : gmap str bool) : list str * gmap str bool :=
  match items with
  | [] => ([], found_keys)
  | (key, value) :: rest =>
      let current_key := Consistency.current_key prefix key in
      let '(here, found_keys) :=
        if decide (is_Some (found_keys !! current_key))
        then ([current_key], found_keys)
        else ([], <[current_key := true]> found_keys) in
      let '(below, found_keys) :=
        if is_dict value
        then Consistency.check_duplicate_keys value current_key found_keys
        else ([], found_keys) in
      let '(after, found_keys) := duplicate_loop prefix rest found_keys in
      (here ++ below ++ after, found_keys)
  end.

(** The line [check_translation_file] prints for one required key. *)
Definition key_line (data : json) (key : str) : ImportKeys.line :=
  let value := ImportKeys.get_nested_value data key in
  if is_none value then ImportKeys.LMissing key
  else ImportKeys.LFound key value.

(** The number of findings an issue of the summary announces. *)
Definition issue_count (i : Consistency.issue) : nat :=
  match i with
  | Consistency.IssueDuplicates _ n => n
  | Consistency.IssueOnly _ n => n
  | Consistency.IssueEmpty _ n => n
  end.

(** The same tree up to the order of the entries of its mappings, at every
    depth. *)
#[local] Unset Elimination Schemes.
Inductive reordered : json → json → Prop :=
| reordered_leaf d :
    is_dict d = false → reordered d d
| reordered_obj items moved items' :
    Forall2 (λ kv kv', kv.1 = kv'.1 ∧ reordered kv.2 kv'.2) items moved →
    moved ≡ₚ items' →
    reordered (JObj items) (JObj items').
#[local] Set Elimination Schemes.

(** ** Example inputs *)

Definition catalog_a : json :=
  JObj [(lit "a", JObj [(lit "b", JStr (lit "hello")); (lit "c", JStr [])])].

Definition catalog_b : json :=
  JObj [(lit "a", JObj [(lit "b", JStr (lit "hallo"))])].

Definition two_catalogs : str → loaded :=
  λ path, if decide (path = de_path) then Loaded catalog_a
          else Loaded catalog_b.

Definition catalog_xy : json :=
  JObj [(lit "x", JObj [(lit "y", JStr (lit "ok"))])].

Definition no_files : str → loaded :=
  λ _, LoadFailed (lit "No such file or directory").

(** ** Reasoning principles *)

(** Induction on the nesting of mappings. *)
Lemma json_dict_ind (P : json → Prop) :
  (∀ d, is_dict d = false → P d) →
  (∀ items, Forall (λ kv, P kv.2) items → P (JObj items)) →
  ∀ d, P d.
Proof.
  intros Hleaf Hobj.
  fix F 1. intros [| | | | | |items]; try (by apply Hleaf).
  apply Hobj. induction items as [|kv rest IH]; constructor; [apply F|apply IH].
Qed.

Lemma nodes_not_dict d : is_dict d = false → nodes d = [].
Proof. by destruct d. Qed.

(** *** Dotted paths *)

Lemma forallb_elem_of {A} (f : A → bool) (l : list A) :
  forallb f l = true ↔ ∀ x, x ∈ l → f x = true.
Proof.
  rewrite forallb_forall. by setoid_rewrite list_elem_of_In.
Qed.

Lemma join_dot_cons key chain :
  join_dot (key :: chain) = key ++ (chain ≫= cons dot).
Proof.
  revert key. induction chain as [|k chain IH]; intros key.
  - simpl. by rewrite app_nil_r.
  - change (join_dot (key :: k :: chain))
      with (key ++ dot :: join_dot (k :: chain)).
    by rewrite IH.
Qed.

Lemma join_dot_cons_cons key chain :
  chain ≠ [] → join_dot (key :: chain) = key ++ dot :: join_dot chain.
Proof. by destruct chain. Qed.

(** The dotted path of a chain below a prefix. *)
Lemma join_dot_under prefix key chain :
  chain ≠ [] →
  (prefix ++ dot :: key) ++ dot :: join_dot chain
  = prefix ++ dot :: join_dot (key :: chain).
Proof.
  intros Hc. rewrite join_dot_cons_cons by done. by rewrite <-app_assoc.
Qed.

Lemma split_dot_app key s h t :
  dot ∉ key → split_dot s = h :: t → split_dot (key ++ s) = (key ++ h) :: t.
Proof.
  intros Hk Hs. induction key as [|c key IH]; [done|]. simpl.
  apply not_elem_of_cons in Hk as [Hc Hk].
  rewrite decide_False by done. by rewrite IH.
Qed.

Lemma split_dot_chain key chain :
  Forall (λ k, dot ∉ k) (key :: chain) →
  split_dot (key ++ (chain ≫= cons dot)) = key :: chain.
Proof.
  revert key. induction chain as [|k chain IH]; intros key Hall;
    apply Forall_cons in Hall as [Hk Hall].
  - change ([] ≫= cons dot) with (@nil N).
    rewrite (split_dot_app key [] [] []); by rewrite ?app_nil_r.
  - rewrite bind_cons.
    rewrite (split_dot_app key _ [] (k :: chain)); rewrite ?app_nil_r; [done..|].
    simpl. by rewrite IH.
Qed.

(** Splitting a dotted path gives back the chain, when no key contains the
    separator. *)
Lemma split_join chain :
  chain ≠ [] → Forall (λ k, dot ∉ k) chain → split_dot (join_dot chain) = chain.
Proof.
  destruct chain as [|key chain]; [done|]. intros _ Hall.
  rewrite join_dot_cons. by apply split_dot_chain.
Qed.

(** *** Mappings *)

Lemma unique_keys_obj items :
  unique_keys (JObj items) = true
  ↔ NoDup items.*1 ∧ ∀ k v, (k, v) ∈ items → unique_keys v = true.
Proof.
  simpl. rewrite andb_true_iff, bool_decide_eq_true, forallb_elem_of.
  split; intros [? H]; split; try done.
  - intros k v. apply H.
  - intros [k v]. apply H.
Qed.

Lemma all_keys_obj P items :
  all_keys P (JObj items) = true
  ↔ ∀ k v, (k, v) ∈ items → P k = true ∧ all_keys P v = true.
Proof.
  simpl. rewrite forallb_elem_of. split.
  - intros H k v Hin. apply andb_true_iff, (H (k, v) Hin).
  - intros H [k v] Hin. apply andb_true_iff, H, Hin.
Qed.

Lemma dict_get_elem_of items key value :
  dict_get items key = Some value → (key, value) ∈ items.
Proof.
  induction items as [|[k v] rest IH]; simpl; [done|].
  destruct (decide (k = key)) as [->|]; [|set_solver].
  intros [= ->]. set_solver.
Qed.

(** In a mapping without repeated keys, indexing by the key of an entry
    gives the value of that entry. *)
Lemma dict_get_unique items key value :
  NoDup items.*1 → (key, value) ∈ items → dict_get items key = Some value.
Proof.
  induction items as [|[k v] rest IH]; simpl; [by intros _ ?%elem_of_nil|].
  rewrite NoDup_cons. intros [Hk Hnd] [[= -> ->]|Hin]%elem_of_cons.
  - by rewrite decide_True.
  - rewrite decide_False; [by apply IH|].
    intros ->. apply Hk. apply list_elem_of_fmap. by exists (key, value).
Qed.

(** *** Direct traversal *)

Lemma elem_of_nodes_obj items chain v :
  (chain, v) ∈ nodes (JObj items)
  ↔ ∃ key value, (key, value) ∈ items
      ∧ ((chain = [key] ∧ v = value)
         ∨ ∃ below, chain = key :: below ∧ (below, v) ∈ nodes value).
Proof.
  simpl. rewrite list_elem_of_bind. split.
  - intros ([key value] & Hin & Hitem). exists key, value. split; [done|].
    apply elem_of_cons in Hin as [[= -> ->]|Hin]; [by left|right].
    apply list_elem_of_fmap in Hin as ([below w] & [= -> ->] & Hin).
    by exists below.
  - intros (key & value & Hitem & H). exists (key, value). split; [|done].
    destruct H as [[-> ->]|(below & -> & Hin)]; [by left|right].
    apply list_elem_of_fmap. by exists (below, v).
Qed.

Lemma index_path_functional d keys r1 r2 :
  index_path d keys r1 → index_path d keys r2 → r1 = r2.
Proof.
  intros H1. revert r2.
  induction H1; inversion 1; simplify_eq/=; try done. by apply IHindex_path.
Qed.

Lemma index_path_total d keys : ∃ r, index_path d keys r.
Proof.
  revert d. induction keys as [|key keys IH]; intros d.
  - exists (Some d). constructor.
  - destruct (is_dict d) eqn:Hd; [|exists None; by constructor].
    destruct d as [| | | | | |items]; try done.
    destruct (dict_get items key) as [value|] eqn:Hget.
    + destruct (IH value) as [r Hr]. exists r. by econstructor.
    + exists None. by constructor.
Qed.

(** Every node of the direct traversal is reached by indexing along its
    chain. *)
Lemma nodes_index d :
  unique_keys d = true →
  ∀ chain v, (chain, v) ∈ nodes d → index_path d chain (Some v).
Proof.
  induction d as [d Hd|items IH] using json_dict_ind.
  { rewrite nodes_not_dict by done. by intros _ ?? ?%elem_of_nil. }
  rewrite unique_keys_obj. intros [Hnd Hsub] chain v.
  rewrite elem_of_nodes_obj. intros (key & value & Hitem & H).
  destruct H as [[-> ->]|(below & -> & Hin)];
    (apply index_step with value; [by apply dict_get_unique|]);
    [constructor|].
  rewrite Forall_forall in IH. eapply (IH (key, value)); eauto.
Qed.

Lemma nodes_dotfree d :
  dotfree_keys d = true →
  ∀ chain v, (chain, v) ∈ nodes d → Forall (λ k, dot ∉ k) chain.
Proof.
  unfold dotfree_keys.
  induction d as [d Hd|items IH] using json_dict_ind.
  { rewrite nodes_not_dict by done. by intros _ ?? ?%elem_of_nil. }
  rewrite all_keys_obj. intros Hall chain v.
  rewrite elem_of_nodes_obj. intros (key & value & Hitem & H).
  destruct (Hall _ _ Hitem) as [Hk%bool_decide_eq_true Hv].
  destruct H as [[-> ->]|(below & -> & Hin)]; constructor; try done.
  rewrite Forall_forall in IH. eapply (IH (key, value)); eauto.
Qed.

Lemma nodes_head d chain v :
  (chain, v) ∈ nodes d → ∃ key below, chain = key :: below ∧
    ∃ items value, d = JObj items ∧ (key, value) ∈ items.
Proof.
  destruct d as [| | | | | |items]; try by intros ?%elem_of_nil.
  rewrite elem_of_nodes_obj. intros (key & value & Hitem & H).
  destruct H as [[-> ->]|(below & -> & Hin)]; naive_solver.
Qed.

Lemma nodes_chain_nonempty d chain v : (chain, v) ∈ nodes d → chain ≠ [].
Proof. by intros (? & ? & -> & _)%nodes_head. Qed.

Lemma nodes_head_nonempty d chain v :
  top_keys_nonempty d = true → (chain, v) ∈ nodes d →
  ∃ key below, chain = key :: below ∧ key ≠ [].
Proof.
  intros Htop (key & below & -> & items & value & -> & Hin)%nodes_head.
  exists key, below. split; [done|]. simpl in Htop.
  rewrite forallb_elem_of in Htop.
  by apply (bool_decide_eq_true _), (Htop (key, value)).
Qed.

(** Distinct nodes have distinct chains. *)
Lemma nodes_chains_NoDup d : unique_keys d = true → NoDup (nodes d).*1.
Proof.
  induction d as [d Hd|items IH] using json_dict_ind.
  { rewrite nodes_not_dict by done. constructor. }
  rewrite unique_keys_obj. intros [Hnd Hsub]. revert Hnd Hsub.
  induction IH as [|[key value] rest IHv _ IHrest]; intros Hnd Hsub.
  { constructor. }
  change (nodes (JObj ((key, value) :: rest)))
    with ((([key], value) :: (prod_map (cons key) id <$> nodes value))
          ++ nodes (JObj rest)).
  rewrite fmap_cons in Hnd. apply NoDup_cons in Hnd as [Hkey Hnd].
  simpl in IHv, Hkey.
  assert (((([key], value) :: (prod_map (cons key) id <$> nodes value)).*1)
          = [key] :: (cons key <$> (nodes value).*1)) as Hfirst.
  { rewrite fmap_cons, <-!list_fmap_compose. simpl. f_equal. }
  rewrite fmap_app, Hfirst. apply NoDup_app. split_and!.
  - apply NoDup_cons. split.
    + intros (below & [= <-] & Hin)%list_elem_of_fmap.
      apply list_elem_of_fmap in Hin as ([c w] & Hc & Hin).
      simpl in Hc. subst c.
      by apply nodes_head in Hin as (? & ? & [=] & _).
    + apply NoDup_fmap_2_strong; [by intros ?? _ _ [=]|].
      apply IHv, (Hsub key value). by left.
  - intros chain Hin ([chain' v] & -> & Hrest)%list_elem_of_fmap.
    apply nodes_head in Hrest
      as (k & below & -> & items & w & [= <-] & Hk).
    assert (k = key) as ->.
    { apply elem_of_cons in Hin as [[=]|Hin]; [done|].
      by apply list_elem_of_fmap in Hin as (? & [=] & _). }
    apply Hkey. apply list_elem_of_fmap. by exists (key, w).
  - apply IHrest; [done|]. intros k v Hin. apply (Hsub k v). by right.
Qed.

(** *** Resolving a path *)

Lemma get_nested_loop_index d keys r :
  index_path d keys r →
  ImportKeys.get_nested_loop d keys = default JNull r.
Proof.
  induction 1 as [d|d key keys Hd|items key keys Hget
                  |items key keys value r Hget _ IH]; simpl.
  - by destruct d.
  - by destruct d.
  - by rewrite Hget.
  - by rewrite Hget.
Qed.

(** *** Repeated paths *)

Lemma earlier_repeats_NoDup before l :
  NoDup (before ++ l) → earlier_repeats before l = [].
Proof.
  revert before. induction l as [|x l IH]; intros before Hnd; [done|].
  simpl. rewrite IH by (by rewrite <-app_assoc).
  apply NoDup_app in Hnd as (_ & Hdisj & _).
  rewrite decide_False; [done|]. intros Hin. apply (Hdisj x Hin). by left.
Qed.

Lemma omap_imap_ext {A B C} (f g : nat → A → B) (F G : B → option C) l :
  (∀ i x, l !! i = Some x → F (f i x) = G (g i x)) →
  omap F (imap f l) = omap G (imap g l).
Proof.
  revert f g. induction l as [|a l IH]; intros f g Hfg; [done|].
  rewrite !imap_cons.
  assert (omap F (imap (f ∘ S) l) = omap G (imap (g ∘ S) l)) as Hrest
    by (apply IH; intros i x Hi; by apply (Hfg (S i))).
  change (omap ?h (?y :: ?k)) with (from_option (λ z, z :: omap h k) (omap h k) (h y)).
  by rewrite (Hfg 0%nat a eq_refl), Hrest.
Qed.

Lemma earlier_repeats_positions before l :
  earlier_repeats before l
  = omap (λ '(i, x), if decide (x ∈ before ++ take i l) then Some x else None)
      (imap pair l).
Proof.
  revert before. induction l as [|x l IH]; intros before; [done|].
  rewrite imap_cons. simpl. rewrite app_nil_r, IH.
  assert (omap (λ '(i, y), if decide (y ∈ (before ++ [x]) ++ take i l)
                           then Some y else None) (imap pair l)
          = omap (λ '(i, y), if decide (y ∈ before ++ take i (x :: l))
                             then Some y else None) (imap (pair ∘ S) l))
    as ->.
  { apply omap_imap_ext. intros i y _. simpl. by rewrite <-app_assoc. }
  by destruct (decide (x ∈ before)).
Qed.

Lemma earlier_repeats_repeated l :
  earlier_repeats [] l = repeated_occurrences l.
Proof. apply earlier_repeats_positions. Qed.

Lemma occurrences_cons p x l :
  occurrences p (x :: l)
  = ((if decide (x = p) then 1 else 0) + occurrences p l)%nat.
Proof.
  unfold occurrences. rewrite filter_cons. by destruct (decide (x = p)).
Qed.

Lemma occurrences_app p l1 l2 :
  occurrences p (l1 ++ l2) = (occurrences p l1 + occurrences p l2)%nat.
Proof. unfold occurrences. by rewrite filter_app, length_app. Qed.

(** A path is reported once for each time it is met after the first. *)
Lemma occurrences_earlier_repeats p before l :
  occurrences p (earlier_repeats before l)
  = if decide (p ∈ before) then occurrences p l
    else (occurrences p l - 1)%nat.
Proof.
  revert before. induction l as [|x l IH]; intros before; simpl.
  { by destruct (decide (p ∈ before)). }
  rewrite occurrences_app, occurrences_cons, IH.
  destruct (decide (x = p)) as [->|Hne].
  - rewrite (decide_True (P := p ∈ before ++ [p]))
      by (apply elem_of_app; right; by left).
    destruct (decide (p ∈ before)); [|simpl; lia].
    rewrite occurrences_cons, decide_True by done. done.
  - assert (occurrences p (if decide (x ∈ before) then [x] else []) = 0%nat)
      as ->.
    { destruct (decide (x ∈ before)); [|done].
      by rewrite occurrences_cons, decide_False. }
    destruct (decide (p ∈ before)) as [Hin|Hin].
    + rewrite decide_True; [done|]. apply elem_of_app. by left.
    + rewrite decide_False; [done|].
      rewrite not_elem_of_app, list_elem_of_singleton. by split.
Qed.

(** *** Whitespace *)

Lemma lstrip_empty s : lstrip s = [] ↔ Forall (λ c, isspace c = true) s.
Proof.
  induction s as [|c s IH]; simpl; [by split|].
  destruct (isspace c) eqn:Hc.
  - rewrite IH, Forall_cons. tauto.
  - split; [done|]. rewrite Forall_cons. intros [? _]. congruence.
Qed.

Lemma lstrip_head s c r : lstrip s = c :: r → isspace c = false.
Proof.
  induction s as [|x s IH]; simpl; [done|].
  destruct (isspace x) eqn:Hx; [done|]. congruence.
Qed.

(** [s.strip() == ""] holds exactly for the whitespace-only strings. *)
Lemma strip_empty s : strip s = [] ↔ Forall (λ c, isspace c = true) s.
Proof.
  rewrite <-lstrip_empty. unfold strip, rstrip. split.
  - intros H. destruct (lstrip s) as [|c r] eqn:Hs; [done|].
    apply (f_equal reverse) in H. rewrite reverse_involutive in H.
    change (reverse []) with (@nil N) in H.
    apply lstrip_empty, Forall_reverse in H.
    rewrite reverse_involutive in H.
    apply lstrip_head in Hs. apply Forall_cons in H as [? _]. congruence.
  - by intros ->.
Qed.

Section walks.
Import Consistency.

Lemma current_key_under prefix key :
  prefix ≠ [] → current_key prefix key = prefix ++ dot :: key.
Proof. by destruct prefix. Qed.

Lemma fmap_nodes_under (prefix key : str) (l : list (list str * json))
    (value : json) :
  (∀ n, n ∈ l → n ∈ nodes value) →
  (λ n, (prefix ++ dot :: key) ++ dot :: join_dot n.1) <$> l
  = (λ n, prefix ++ dot :: join_dot n.1) <$> (prod_map (cons key) id <$> l).
Proof.
  intros Hl. rewrite <-list_fmap_compose. apply list_fmap_ext.
  intros i [chain v] Hi. simpl. apply join_dot_under.
  by eapply nodes_chain_nonempty, Hl, list_elem_of_lookup_2.
Qed.

Lemma fmap_nodes_root (key : str) (l : list (list str * json))
    (value : json) :
  (∀ n, n ∈ l → n ∈ nodes value) →
  (λ n, key ++ dot :: join_dot n.1) <$> l
  = (λ n, join_dot n.1) <$> (prod_map (cons key) id <$> l).
Proof.
  intros Hl. rewrite <-list_fmap_compose. apply list_fmap_ext.
  intros i [chain v] Hi. simpl. symmetry. apply join_dot_cons_cons.
  by eapply nodes_chain_nonempty, Hl, list_elem_of_lookup_2.
Qed.

(** Below a prefix that is not empty, the flattener visits the nodes of the
    direct traversal, in the same order, and emits for each the prefix, a
    ["."] and the dotted path of its chain. *)
Lemma get_all_keys_under d :
  ∀ prefix, prefix ≠ [] →
    get_all_keys d prefix = (λ n, prefix ++ dot :: join_dot n.1) <$> nodes d.
Proof.
  induction d as [d Hd|items IH] using json_dict_ind; intros prefix Hp.
  { rewrite nodes_not_dict by done. by destruct d. }
  simpl. induction IH as [|[key value] rest IHv _ IHrest]; [done|].
  rewrite !bind_cons, fmap_app, <-IHrest. f_equal. simpl in *.
  rewrite current_key_under by done. f_equal.
  destruct (is_dict value) eqn:Hv.
  - rewrite IHv by (by destruct prefix). by apply (fmap_nodes_under _ _ _ value).
  - by rewrite nodes_not_dict.
Qed.

Lemma filter_fmap_comp {A B} (f : A → B) (P : B → Prop)
    `{∀ x, Decision (P x)} (l : list A) :
  filter P (f <$> l) = f <$> filter (P ∘ f) l.
Proof.
  induction l as [|x l IH]; [done|]. simpl.
  rewrite !filter_cons. simpl. destruct (decide (P (f x))); simpl; by f_equal.
Qed.

(** What the body of the loop of [check_empty_values] yields for a value
    that is not a mapping. *)
Lemma empty_leaf_finding (value : json) (path : str) (chain : list str) :
  is_dict value = false →
  (match value with
   | JStr s => if decide (strip s = []) then [path] else []
   | _ => []
   end)
  = (λ _ : list str * json, path)
      <$> filter (λ n, whitespace_only n.2) [(chain, value)].
Proof.
  intros Hv. rewrite filter_cons. simpl.
  destruct value as [| | | |s| |]; try done. simpl.
  destruct (decide (strip s = [])) as [Hs|Hs];
    destruct (decide (Forall (λ c, isspace c = true) s)) as [Hw|Hw];
    try done; by rewrite strip_empty in Hs.
Qed.

(** Below a prefix that is not empty, the empty-value walk keeps exactly the
    nodes that hold a whitespace-only string, in order, and emits for each
    the prefix, a ["."] and the dotted path of its chain. *)
Lemma check_empty_values_under d lang_name :
  ∀ prefix, prefix ≠ [] →
    check_empty_values d prefix lang_name
    = (λ n, prefix ++ dot :: join_dot n.1)
        <$> filter (λ n, whitespace_only n.2) (nodes d).
Proof.
  induction d as [d Hd|items IH] using json_dict_ind; intros prefix Hp.
  { rewrite nodes_not_dict by done. by destruct d. }
  simpl. induction IH as [|[key value] rest IHv _ IHrest]; [done|].
  rewrite !bind_cons, filter_app, fmap_app, <-IHrest. f_equal. simpl in *.
  rewrite current_key_under by done.
  destruct (is_dict value) eqn:Hv.
  - rewrite filter_cons. simpl.
    destruct (decide (whitespace_only value)) as [Hw|_]; [by destruct value|].
    rewrite IHv by (by destruct prefix). rewrite filter_fmap_comp.
    apply (fmap_nodes_under _ _ _ value).
    by intros n [_ ?]%list_elem_of_filter.
  - rewrite nodes_not_dict by done. simpl.
    rewrite (empty_leaf_finding value _ [key]) by done.
    rewrite filter_cons, filter_nil. simpl.
    by destruct (decide (whitespace_only value)).
Qed.

(** From the root of a catalog whose root keys are not empty, the path the
    flattener builds along a chain is the chain joined by ["."]. *)
Lemma get_all_keys_join d :
  top_keys_nonempty d = true →
  get_all_keys d [] = (λ n, join_dot n.1) <$> nodes d.
Proof.
  destruct d as [| | | | | |items]; try done. simpl.
  rewrite forallb_elem_of. intros Htop.
  induction items as [|[key value] rest IH]; [done|].
  rewrite !bind_cons, fmap_app, <-IH
    by (intros kv Hkv; apply Htop; by right).
  f_equal. simpl. f_equal.
  assert (key ≠ []) as Hk
    by (apply (bool_decide_eq_true _), (Htop (key, value)); by left).
  destruct (is_dict value) eqn:Hv.
  - rewrite get_all_keys_under by done. by apply (fmap_nodes_root _ _ value).
  - by rewrite nodes_not_dict.
Qed.

(** From the root of a catalog whose root keys are not empty, the findings
    of the empty-value walk are the dotted paths of exactly the nodes that
    hold a whitespace-only string, in order. *)
Lemma check_empty_values_join d lang_name :
  top_keys_nonempty d = true →
  check_empty_values d [] lang_name
  = (λ n, join_dot n.1) <$> filter (λ n, whitespace_only n.2) (nodes d).
Proof.
  destruct d as [| | | | | |items]; try done. simpl.
  rewrite forallb_elem_of. intros Htop.
  induction items as [|[key value] rest IH]; [done|].
  rewrite !bind_cons, filter_app, fmap_app, <-IH
    by (intros kv Hkv; apply Htop; by right).
  f_equal. simpl.
  assert (key ≠ []) as Hk
    by (apply (bool_decide_eq_true _), (Htop (key, value)); by left).
  destruct (is_dict value) eqn:Hv.
  - rewrite filter_cons. simpl.
    destruct (decide (whitespace_only value)) as [Hw|_]; [by destruct value|].
    rewrite check_empty_values_under by done. rewrite filter_fmap_comp.
    apply (fmap_nodes_root _ _ value).
    by intros n [_ ?]%list_elem_of_filter.
  - rewrite nodes_not_dict by done. simpl.
    rewrite (empty_leaf_finding value _ [key]) by done.
    rewrite filter_cons, filter_nil. simpl.
    by destruct (decide (whitespace_only value)).
Qed.

(** Whatever the prefix, the flattener emits one path per node of the direct
    traversal. *)
Lemma get_all_keys_length d :
  ∀ prefix, length (get_all_keys d prefix) = length (nodes d).
Proof.
  induction d as [d Hd|items IH] using json_dict_ind; intros prefix.
  { rewrite nodes_not_dict by done. by destruct d. }
  simpl. induction IH as [|[key value] rest IHv _ IHrest]; [done|].
  rewrite !bind_cons, !length_app, IHrest. f_equal. simpl in *. f_equal.
  rewrite length_fmap. destruct (is_dict value) eqn:Hv; [by rewrite IHv|].
  by rewrite nodes_not_dict.
Qed.

(** Whatever the prefix, the findings of the empty-value walk are among the
    paths of the flattener, in the same order. *)
Lemma check_empty_values_flattened d lang_name :
  ∀ prefix,
    check_empty_values d prefix lang_name `sublist_of` get_all_keys d prefix.
Proof.
  induction d as [d Hd|items IH] using json_dict_ind; intros prefix.
  { by destruct d. }
  simpl. induction IH as [|[key value] rest IHv _ IHrest]; [done|].
  rewrite !bind_cons. apply sublist_app; [|done]. simpl in *.
  destruct (is_dict value) eqn:Hv.
  - by apply sublist_cons.
  - destruct value as [| | | |s| |]; try done; try apply sublist_nil_l.
    destruct (decide (strip s = [])); [done|apply sublist_nil_l].
Qed.

(** *** The duplicate-key walk *)

Lemma earlier_repeats_app before l1 l2 :
  earlier_repeats before (l1 ++ l2)
  = earlier_repeats before l1 ++ earlier_repeats (before ++ l1) l2.
Proof.
  revert before. induction l1 as [|x l1 IH]; intros before; simpl.
  - by rewrite app_nil_r.
  - by rewrite IH, <-!app_assoc.
Qed.

(** One step of the walk: the membership test on the shared dictionary and
    its update, against the list of paths met so far. *)
Lemma found_keys_step (found : gmap str bool) before cur :
  dom found = list_to_set before →
  let r := if decide (is_Some (found !! cur))
           then ([cur], found) else ([], <[cur := true]> found) in
  r.1 = (if decide (cur ∈ before) then [cur] else [])
  ∧ dom r.2 = list_to_set (before ++ [cur]).
Proof.
  intros Hdom. simpl.
  assert (is_Some (found !! cur) ↔ cur ∈ before) as Hin.
  { by rewrite <-elem_of_dom, Hdom, elem_of_list_to_set. }
  rewrite list_to_set_app_L, <-Hdom.
  change (list_to_set [cur]) with ({[cur]} ∪ (∅ : gset str)).
  rewrite (right_id_L ∅ (∪)).
  destruct (decide (is_Some (found !! cur))) as [Hs|Hs];
    destruct (decide (cur ∈ before)) as [Hb|Hb]; try tauto; simpl; split;
    try done.
  - apply elem_of_dom in Hs. symmetry. rewrite (comm_L (∪)).
    apply subseteq_union_1_L.
    by apply singleton_subseteq_l.
  - rewrite dom_insert_L. apply (comm_L _).
Qed.

Lemma check_duplicate_keys_obj items prefix found :
  check_duplicate_keys (JObj items) prefix found
  = duplicate_loop prefix items found.
Proof.
  revert found. induction items as [|[key value] rest IH]; intros found;
    [done|].
  simpl.
  destruct (if decide (is_Some (found !! current_key prefix key))
            then _ else _) as [here found1].
  destruct (if is_dict value then _ else _) as [below found2].
  by rewrite <-IH.
Qed.

(** The walk reports, in order, the paths of the flattened sequence that
    were met before; the shared dictionary ends up holding every path met. *)
Lemma check_duplicate_keys_walk d :
  ∀ prefix (found : gmap str bool) before,
    dom found = list_to_set before →
    (check_duplicate_keys d prefix found).1
    = earlier_repeats before (get_all_keys d prefix)
    ∧ dom (check_duplicate_keys d prefix found).2
      = list_to_set (before ++ get_all_keys d prefix).
Proof.
  induction d as [d Hd|items IH] using json_dict_ind; intros prefix.
  { intros found before Hdom. destruct d; try done; by rewrite app_nil_r. }
  setoid_rewrite check_duplicate_keys_obj. simpl get_all_keys.
  induction IH as [|[key value] rest IHv _ IHrest];
    intros found before Hdom.
  { by rewrite app_nil_r. }
  rewrite bind_cons. simpl in IHv |- *.
  set (cur := current_key prefix key) in *.
  pose proof (found_keys_step found before cur Hdom) as [Hhere Hfound1].
  simpl in Hhere, Hfound1.
  destruct (if decide (is_Some (found !! cur)) then _ else _)
    as [here found1]. simpl in Hhere, Hfound1.
  set (sub := if is_dict value then get_all_keys value cur else []).
  assert (∃ below found2,
    (if is_dict value then check_duplicate_keys value cur found1
     else ([], found1)) = (below, found2)
    ∧ below = earlier_repeats (before ++ [cur]) sub
    ∧ dom found2 = list_to_set ((before ++ [cur]) ++ sub))
    as (below & found2 & -> & Hbelow & Hfound2).
  { subst sub. destruct (is_dict value).
    - destruct (IHv cur found1 _ Hfound1) as [H1 H2].
      destruct (check_duplicate_keys value cur found1) as [b f].
      by exists b, f.
    - exists [], found1. by rewrite app_nil_r. }
  destruct (IHrest found2 _ Hfound2) as [Hafter Hfound3].
  destruct (duplicate_loop prefix rest found2) as [after found3].
  simpl in *. subst here below after. split.
  - change (cur :: ?l) with ([cur] ++ l).
    by rewrite !earlier_repeats_app.
  - rewrite Hfound3. by rewrite <-!app_assoc.
Qed.

End walks.

(** ** The flattener *)

Section flattener.
Import Consistency.

(** C9, as the code has it: from the root of a catalog whose root keys are
    not empty, the flattener emits one key path for every key met at every
    depth, in iteration order: the keys of the chain from the root joined
    by ["."] (the key alone at the root).  It descends into a value only when
    the value is a mapping ([nodes] descends into nothing else), and every
    other value still contributes the path of its own key. *)
Theorem get_all_keys_dotted_paths d :
  top_keys_nonempty d = true →
  get_all_keys d [] = (λ n, join_dot n.1) <$> nodes d.
Proof. apply get_all_keys_join. Qed.

Lemma get_all_keys_dotted_paths_witness :
  get_all_keys catalog_a [] = (λ n, join_dot n.1) <$> nodes catalog_a.
Proof. apply get_all_keys_dotted_paths. reflexivity. Defined.

(** C9, counterexample to the claim as stated: under a root key that is the
    empty string the parent path is empty, and the key ["x"] below it is
    emitted as ["x"], not as [".x"]. *)
Lemma get_all_keys_empty_root_key :
  let d := JObj [([], JObj [(lit "x", JInt 1)])] in
  get_all_keys d [] = [[]; lit "x"]
  ∧ (λ n, join_dot n.1) <$> nodes d = [[]; lit ".x"]
  ∧ get_all_keys d [] ≠ (λ n, join_dot n.1) <$> nodes d.
Proof. by vm_compute. Qed.

End flattener.

(** ** Flattening, then resolving *)

Section resolve.
Import Consistency ImportKeys.

(** C1, as the code has it: in a catalog whose keys contain no ["."] and
    whose root keys are not empty, every key path [p] emitted by the
    flattener is the dotted path of a node of the direct traversal, and for
    every such node the resolver indexes down to it without failing and
    returns the value stored there.  ([unique_keys] is the invariant of a
    Python [dict].) *)
Theorem flatten_then_resolve C p :
  unique_keys C = true →
  dotfree_keys C = true →
  top_keys_nonempty C = true →
  p ∈ get_all_keys C [] →
  (∃ chain v, (chain, v) ∈ nodes C ∧ join_dot chain = p)
  ∧ ∀ chain v, (chain, v) ∈ nodes C → join_dot chain = p →
      index_path C (split_dot p) (Some v) ∧ get_nested_value C p = v.
Proof.
  intros Hu Hd Ht Hp. split.
  - rewrite get_all_keys_join in Hp by done.
    apply list_elem_of_fmap in Hp as ([chain v] & -> & Hin). by exists chain, v.
  - intros chain v Hin <-.
    assert (split_dot (join_dot chain) = chain) as Hsplit.
    { apply split_join; [|by eapply nodes_dotfree].
      by destruct (nodes_head _ _ _ Hin) as (? & ? & -> & _). }
    unfold get_nested_value. rewrite Hsplit.
    pose proof (nodes_index C Hu chain v Hin) as Hidx. split; [done|].
    by rewrite (get_nested_loop_index _ _ _ Hidx).
Qed.

Lemma flatten_then_resolve_witness :
  (∃ chain v, (chain, v) ∈ nodes catalog_a ∧ join_dot chain = lit "a.b")
  ∧ ∀ chain v, (chain, v) ∈ nodes catalog_a → join_dot chain = lit "a.b" →
      index_path catalog_a (split_dot (lit "a.b")) (Some v)
      ∧ get_nested_value catalog_a (lit "a.b") = v.
Proof.
  apply flatten_then_resolve; [reflexivity..|].
  vm_compute. do 2 constructor.
Defined.

(** C1, counterexample to the claim as stated: the key ["a.b"] is emitted by
    the flattener as the path ["a.b"], which the resolver splits into
    ["a"] and ["b"] and fails to find. *)
Lemma resolve_dotted_key_fails :
  let C := JObj [(lit "a.b", JStr (lit "x"))] in
  unique_keys C = true
  ∧ lit "a.b" ∈ get_all_keys C []
  ∧ nodes C = [([lit "a.b"], JStr (lit "x"))]
  ∧ get_nested_value C (lit "a.b") = JNull
  ∧ get_nested_value C (lit "a.b") ≠ JStr (lit "x").
Proof. vm_compute. split_and!; try done. constructor. Qed.

End resolve.

(** ** Duplicate keys *)

Section duplicates.
Import Consistency.

(** In a catalog without repeated keys in any mapping, whose keys contain
    no ["."] and whose root keys are not empty, no key path is emitted
    twice. *)
Lemma get_all_keys_NoDup d :
  unique_keys d = true →
  dotfree_keys d = true →
  top_keys_nonempty d = true →
  NoDup (get_all_keys d []).
Proof.
  intros Hu Hd Ht. rewrite get_all_keys_join by done.
  assert ((λ n : list str * json, join_dot n.1) <$> nodes d
          = join_dot <$> (nodes d).*1) as ->
    by (by rewrite <-list_fmap_compose).
  apply NoDup_fmap_2_strong; [|by apply nodes_chains_NoDup].
  intros c1 c2 Hc1 Hc2 Heq.
  apply list_elem_of_fmap in Hc1 as ([l1 v1] & -> & Hc1).
  apply list_elem_of_fmap in Hc2 as ([l2 v2] & -> & Hc2). simpl in *.
  assert (∀ c v, (c, v) ∈ nodes d → split_dot (join_dot c) = c) as Hs.
  { intros c v Hin. apply split_join; [|by eapply nodes_dotfree].
    by destruct (nodes_head _ _ _ Hin) as (? & ? & -> & _). }
  by rewrite <-(Hs _ _ Hc1), <-(Hs _ _ Hc2), Heq.
Qed.

(** C10: the findings of the duplicate-key walk are exactly the
    sub-sequence of the flattened key-path sequence made of the occurrences
    whose path already occurs at an earlier position of that sequence. *)
Theorem check_duplicate_keys_earlier_repeats d :
  (check_duplicate_keys d [] ∅).1 = repeated_occurrences (get_all_keys d []).
Proof.
  rewrite <-earlier_repeats_repeated.
  by destruct (check_duplicate_keys_walk d [] ∅ []) as [-> _].
Qed.

Example repeated_occurrences_example :
  repeated_occurrences [lit "a"; lit "b"; lit "a"; lit "c"; lit "a"]
  = [lit "a"; lit "a"].
Proof. by vm_compute. Qed.

(** C2, as the code has it: on a catalog without repeated keys in any
    mapping, whose keys contain no ["."] and whose root keys are not empty,
    the duplicate-key walk finds nothing; and on every catalog a key path is
    reported once for each time it is met after the first (the walk meets
    the paths of the flattened sequence, in order). *)
Theorem check_duplicate_keys_findings d :
  (unique_keys d = true → dotfree_keys d = true →
   top_keys_nonempty d = true →
   (check_duplicate_keys d [] ∅).1 = [])
  ∧ ∀ p, occurrences p (check_duplicate_keys d [] ∅).1
         = (occurrences p (get_all_keys d []) - 1)%nat.
Proof.
  destruct (check_duplicate_keys_walk d [] ∅ []) as [-> _]; [done|]. split.
  - intros Hu Hd Ht. apply earlier_repeats_NoDup. by apply get_all_keys_NoDup.
  - intros p. rewrite occurrences_earlier_repeats.
    rewrite decide_False; [done|]. apply not_elem_of_nil.
Qed.

Lemma check_duplicate_keys_findings_witness :
  (check_duplicate_keys catalog_a [] ∅).1 = [].
Proof.
  apply (proj1 (check_duplicate_keys_findings catalog_a)); reflexivity.
Defined.

(** C2, counterexample to the claim as stated: no mapping repeats a key, yet
    the key ["a.b"] of the root and the key ["b"] below ["a"] are both met
    as the path ["a.b"], and the second is reported. *)
Lemma check_duplicate_keys_dotted_key :
  let d := JObj [(lit "a.b", JInt 1); (lit "a", JObj [(lit "b", JInt 2)])] in
  unique_keys d = true
  ∧ (check_duplicate_keys d [] ∅).1 = [lit "a.b"]
  ∧ (check_duplicate_keys d [] ∅).1 ≠ [].
Proof. by vm_compute. Qed.

End duplicates.

(** ** Empty values *)

Section empty_values.
Import Consistency.

(** C7, as the code has it: for a catalog whose root keys are not empty, the
    findings of the empty-value walk are, in order, the dotted key paths of
    exactly the nodes whose value is a string made of whitespace only (the
    empty string included); a value that is not a string is never such a
    node. *)
Theorem check_empty_values_whitespace d lang_name :
  top_keys_nonempty d = true →
  check_empty_values d [] lang_name
  = (λ n, join_dot n.1) <$> filter (λ n, whitespace_only n.2) (nodes d)
  ∧ ∀ v, whitespace_only v
         ↔ ∃ s, v = JStr s ∧ Forall (λ c, isspace c = true) s.
Proof.
  intros Htop. split; [by apply check_empty_values_join|].
  intros v. split.
  - destruct v as [| | | |s| |]; try done. intros Hs. by exists s.
  - by intros (s & -> & Hs).
Qed.

Lemma check_empty_values_whitespace_witness :
  check_empty_values catalog_a [] (lit "Deutsch") = [lit "a.c"]
  ∧ (λ n, join_dot n.1) <$> filter (λ n, whitespace_only n.2) (nodes catalog_a)
    = [lit "a.c"].
Proof.
  destruct (check_empty_values_whitespace catalog_a (lit "Deutsch") eq_refl)
    as [<- _].
  split; by vm_compute.
Defined.

(** C7, counterexample to the claim as stated: below a root key that is the
    empty string, the empty value under ["x"] is reported as ["x"], although
    the key path of that leaf is [".x"]. *)
Lemma check_empty_values_empty_root_key :
  let d := JObj [([], JObj [(lit "x", JStr [])])] in
  check_empty_values d [] (lit "Deutsch") = [lit "x"]
  ∧ (λ n, join_dot n.1) <$> filter (λ n, whitespace_only n.2) (nodes d)
    = [lit ".x"]
  ∧ check_empty_values d [] (lit "Deutsch")
    ≠ (λ n, join_dot n.1) <$> filter (λ n, whitespace_only n.2) (nodes d).
Proof. by vm_compute. Qed.

(** The examples of the specification. *)
Example check_empty_values_examples :
  check_empty_values
    (JObj [(lit "e", JStr []); (lit "s", JStr (lit "   "));
           (lit "x", JStr (lit "x")); (lit "n", JInt 0);
           (lit "f", JBool false)]) [] []
  = [lit "e"; lit "s"].
Proof. by vm_compute. Qed.

End empty_values.

(** ** The required-key audit *)

Section audit.
Import ImportKeys.

(** The resolver returns [None] exactly when indexing fails or ends on a
    [None] value. *)
Lemma get_nested_value_none data key :
  get_nested_value data key = JNull
  ↔ index_path data (split_dot key) None
    ∨ index_path data (split_dot key) (Some JNull).
Proof.
  unfold get_nested_value. split.
  - intros Hnull. destruct (index_path_total data (split_dot key)) as [r Hr].
    rewrite (get_nested_loop_index _ _ _ Hr) in Hnull.
    destruct r as [v|]; [right|by left]. simpl in Hnull. by subst v.
  - by intros [Hr|Hr]; rewrite (get_nested_loop_index _ _ _ Hr).
Qed.

Lemma get_nested_value_found data key :
  get_nested_value data key ≠ JNull
  ↔ ∃ v, index_path data (split_dot key) (Some v) ∧ v ≠ JNull.
Proof.
  unfold get_nested_value.
  destruct (index_path_total data (split_dot key)) as [r Hr].
  rewrite (get_nested_loop_index _ _ _ Hr). split.
  - intros Hv. destruct r as [v|]; [by exists v|done].
  - intros (v & Hv & Hne).
    by rewrite (index_path_functional _ _ _ _ Hr Hv).
Qed.

Lemma is_none_true v : is_none v = true ↔ v = JNull.
Proof. by destruct v. Qed.

(** What the loop over the required keys records for each key. *)
Lemma check_keys_records data required key :
  (key ∈ (check_keys data required).2.2
   ↔ key ∈ required ∧ get_nested_value data key = JNull)
  ∧ (key ∈ (check_keys data required).2.1
     ↔ key ∈ required ∧ get_nested_value data key ≠ JNull)
  ∧ (∀ v, LFound key v ∈ (check_keys data required).1
     ↔ key ∈ required ∧ v = get_nested_value data key ∧ v ≠ JNull).
Proof.
  induction required as [|k rest IH]; simpl.
  { split_and!; [| |intros v]; split; try (by intros ?%elem_of_nil);
      by intros [?%elem_of_nil _]. }
  destruct IH as (IHm & IHf & IHo).
  destruct (check_keys data rest) as [out [found missing]]. simpl in *.
  destruct (is_none (get_nested_value data k)) eqn:Hnone; simpl.
  - apply is_none_true in Hnone.
    split_and!; [| |intros v]; rewrite !elem_of_cons, ?IHm, ?IHf, ?IHo;
      intuition congruence.
  - assert (get_nested_value data k ≠ JNull) as Hne.
    { intros Heq%is_none_true. congruence. }
    split_and!; [| |intros v]; rewrite !elem_of_cons, ?IHm, ?IHf, ?IHo;
      intuition congruence.
Qed.

Lemma print_all_ok lines :
  (print_all lines).2 = None → print_all lines = (lines, None).
Proof.
  induction lines as [|l rest IH]; simpl; [done|].
  destruct (printable l); [|done].
  destruct (print_all rest) as [printed failed]. simpl in *.
  intros ->. by injection (IH eq_refl) as ->.
Qed.

(** A [print] that raises leaves the earlier lines printed and nothing of the
    later ones. *)
Lemma print_all_failed lines l :
  (print_all lines).2 = Some l →
  printable l = false
  ∧ Forall (λ x, printable x = true) (print_all lines).1
  ∧ ∃ rest, lines = (print_all lines).1 ++ l :: rest.
Proof.
  induction lines as [|x rest IH]; simpl; [done|].
  destruct (printable x) eqn:Hx.
  - destruct (print_all rest) as [printed failed]. simpl in *.
    intros Hl. destruct (IH Hl) as (Hbad & Hgood & after & ->).
    split_and!; [done|by constructor|by exists after].
  - intros [= <-]. split_and!; [done|constructor|by exists rest].
Qed.

(** The [try] block when every [print] returns. *)
Lemma check_translation_file_printed required fs file_path lang_name data :
  fs file_path = Loaded data →
  (print_all (report data required lang_name).1).2 = None →
  check_translation_file required fs file_path lang_name
  = report data required lang_name.
Proof.
  intros Hload Hprint. unfold check_translation_file. rewrite Hload.
  destruct (report data required lang_name) as [lines result].
  simpl in Hprint. by rewrite (print_all_ok _ Hprint).
Qed.

(** The [try] block when a [print] raises. *)
Lemma check_translation_file_print_failed required fs file_path lang_name
    data l :
  fs file_path = Loaded data →
  (print_all (report data required lang_name).1).2 = Some l →
  check_translation_file required fs file_path lang_name
  = ((print_all (report data required lang_name).1).1
       ++ [LPrintFailed file_path l],
     ([], required)).
Proof.
  intros Hload Hprint. unfold check_translation_file. rewrite Hload.
  destruct (report data required lang_name) as [lines result].
  simpl in *. destruct (print_all lines) as [printed failed].
  simpl in Hprint. by subst failed.
Qed.

(** C3, as the code has it: for a catalog that loads and a report of which
    every line can be printed, a required key path is recorded as missing
    exactly when indexing level by level fails (a segment is absent, or the
    node reached is not a mapping) or ends on a [None] value; otherwise it is
    recorded as found and printed with the value resolved. *)
Theorem check_translation_file_records required fs file_path lang_name data key :
  fs file_path = Loaded data →
  (print_all (report data required lang_name).1).2 = None →
  key ∈ required →
  let r := check_translation_file required fs file_path lang_name in
  (key ∈ r.2.2
   ↔ index_path data (split_dot key) None
     ∨ index_path data (split_dot key) (Some JNull))
  ∧ (key ∈ r.2.1
     ↔ ∃ v, index_path data (split_dot key) (Some v) ∧ v ≠ JNull)
  ∧ (∀ v, index_path data (split_dot key) (Some v) → v ≠ JNull →
       LFound key v ∈ r.1).
Proof.
  intros Hload Hprint Hkey.
  rewrite (check_translation_file_printed _ _ _ _ _ Hload Hprint).
  unfold report.
  destruct (check_keys_records data required key) as (Hm & Hf & Ho).
  destruct (check_keys data required) as [out [found missing]]. simpl in *.
  split_and!.
  - rewrite Hm, get_nested_value_none. tauto.
  - rewrite Hf, get_nested_value_found. tauto.
  - intros v Hv Hne. right. apply elem_of_app. left. apply Ho.
    split_and!; try done. unfold get_nested_value.
    by rewrite (get_nested_loop_index _ _ _ Hv).
Qed.

Lemma check_translation_file_records_witness :
  let r := check_translation_file [lit "x.y"; lit "x.z"]
             (λ _, Loaded catalog_xy) de_path (lit "Deutsche") in
  (lit "x.z" ∈ r.2.2
   ↔ index_path catalog_xy (split_dot (lit "x.z")) None
     ∨ index_path catalog_xy (split_dot (lit "x.z")) (Some JNull))
  ∧ (lit "x.z" ∈ r.2.1
     ↔ ∃ v, index_path catalog_xy (split_dot (lit "x.z")) (Some v)
            ∧ v ≠ JNull)
  ∧ (∀ v, index_path catalog_xy (split_dot (lit "x.z")) (Some v) →
       v ≠ JNull → LFound (lit "x.z") v ∈ r.1).
Proof.
  apply (check_translation_file_records _ (λ _, Loaded catalog_xy));
    [reflexivity|reflexivity|]. vm_compute. do 2 constructor.
Defined.

(** A value that cannot be printed: the catalog
    [{"x": {"y": "\ud83d", "z": "ok"}}] loads, both paths resolve to strings,
    the [print] of the first raises, and every required key comes back as
    missing. *)
Example check_translation_file_surrogate :
  let data :=
    JObj [(lit "x", JObj [(lit "y", JStr [55357]); (lit "z", JStr (lit "ok"))])] in
  check_translation_file [lit "x.y"; lit "x.z"] (λ _, Loaded data) de_path
    (lit "Deutsche")
  = ([LFileTitle (lit "Deutsche");
      LPrintFailed de_path (LFound (lit "x.y") (JStr [55357]))],
     ([], [lit "x.y"; lit "x.z"])).
Proof. by vm_compute. Qed.

(** The two scenarios of the specification. *)
Example check_translation_file_scenarios :
  check_translation_file [lit "x.y"] (λ _, Loaded catalog_xy) de_path []
  = ([LFileTitle []; LFound (lit "x.y") (JStr (lit "ok")); LSummary [] 1 1 0],
     ([lit "x.y"], []))
  ∧ check_translation_file [lit "x.z"] (λ _, Loaded catalog_xy) de_path []
    = ([LFileTitle []; LMissing (lit "x.z"); LSummary [] 0 1 1],
       ([], [lit "x.z"])).
Proof. by vm_compute. Qed.

(** C3, counterexample to the claim as stated: the path ["x.y"] resolves,
    level by level, to the value [None] stored in the catalog, and is recorded
    as missing although no segment is absent, every node indexed is a
    mapping, and every line of the report is printed. *)
Lemma check_translation_file_null_value :
  let data := JObj [(lit "x", JObj [(lit "y", JNull)])] in
  let r := check_translation_file [lit "x.y"] (λ _, Loaded data) de_path
             (lit "Deutsche") in
  lit "x.y" ∈ r.2.2
  ∧ index_path data (split_dot (lit "x.y")) (Some JNull)
  ∧ ¬ index_path data (split_dot (lit "x.y")) None
  ∧ (print_all (report data [lit "x.y"] (lit "Deutsche")).1).2 = None.
Proof.
  intros data r.
  assert (index_path data (split_dot (lit "x.y")) (Some JNull)) as Hidx.
  { vm_compute. eapply index_step; [reflexivity|].
    eapply index_step; [reflexivity|]. constructor. }
  split_and!; [vm_compute; constructor|done| |by vm_compute].
  intros Hnone. by pose proof (index_path_functional _ _ _ _ Hidx Hnone).
Qed.

(** The [except] branch of [check_translation_file]. *)
Lemma check_translation_file_failed required fs file_path lang_name e :
  fs file_path = LoadFailed e →
  check_translation_file required fs file_path lang_name
  = ([LReadError file_path e], ([], required)).
Proof. intros Hload. unfold check_translation_file. by rewrite Hload. Qed.

Lemma truthy_set_empty : Consistency.truthy_set ∅ = false.
Proof. unfold Consistency.truthy_set. by rewrite elements_empty. Qed.

Lemma truthy_set_list_to_set (l : list str) :
  l ≠ [] → Consistency.truthy_set (list_to_set l) = true.
Proof.
  intros Hl. unfold Consistency.truthy_set.
  destruct (elements (list_to_set l : gset str)) as [|x xs] eqn:He; [|done].
  apply elements_empty_inv in He. destruct l as [|y l]; [done|].
  exfalso. apply (not_elem_of_empty (C := gset str) y). rewrite <-He.
  apply elem_of_list_to_set. by left.
Qed.

(** The run when neither catalog can be read: every required key is printed
    as missing in both languages. *)
Lemma main_with_no_catalog required fs e1 e2 :
  fs de_path = LoadFailed e1 →
  fs en_path = LoadFailed e2 →
  required ≠ [] →
  main_with required fs
  = [LReadError de_path e1; LReadError en_path e2;
     LOverview (length required) 0 0 0;
     LBothMissing (list_to_set required)].
Proof.
  intros Hde Hen Hreq. unfold main_with.
  rewrite !(check_translation_file_failed _ _ _ _ _ Hde).
  rewrite !(check_translation_file_failed _ _ _ _ _ Hen).
  cbn [list_to_set foldr].
  assert ((∅ : gset str) ∩ ∅ = ∅) as -> by apply (idemp_L _).
  assert ((∅ : gset str) ∖ ∅ = ∅) as -> by apply difference_diag_L.
  assert (list_to_set required ∩ list_to_set required
          = (list_to_set required : gset str)) as -> by apply (idemp_L _).
  by rewrite truthy_set_empty, truthy_set_list_to_set, size_empty.
Qed.

(** C4, as the code has it: when the catalog fails to load, the loop over
    the required keys is skipped (one diagnostic is printed, no per-key line),
    no key is recorded as found, and every required key is returned as
    missing. *)
Theorem check_translation_file_load_failure required fs file_path lang_name e :
  fs file_path = LoadFailed e →
  check_translation_file required fs file_path lang_name
  = ([LReadError file_path e], ([], required)).
Proof. apply check_translation_file_failed. Qed.

Lemma check_translation_file_load_failure_witness :
  check_translation_file required_keys no_files de_path (lit "Deutsche")
  = ([LReadError de_path (lit "No such file or directory")],
     ([], required_keys)).
Proof. by apply check_translation_file_load_failure. Defined.

(** C4, counterexample to the claim as stated: with both catalogs
    unreadable, every required key comes back in the list of missing keys,
    and the run prints all of them as missing in both languages. *)
Lemma load_failure_reports_missing :
  (check_translation_file required_keys no_files de_path (lit "Deutsche")).2.2
  = required_keys
  ∧ lit "import.progress.backup" ∈ required_keys
  ∧ main no_files
    = [LReadError de_path (lit "No such file or directory");
       LReadError en_path (lit "No such file or directory");
       LOverview (length required_keys) 0 0 0;
       LBothMissing (list_to_set required_keys)].
Proof.
  split_and!.
  - by rewrite (check_translation_file_failed _ _ _ _
                  (lit "No such file or directory")).
  - apply list_elem_of_In. vm_compute. tauto.
  - by apply main_with_no_catalog.
Qed.

End audit.

(** ** The run of the consistency check *)

Section run.
Import Consistency.


Lemma truthy_false {A} (l : list A) : truthy l = false ↔ l = [].
Proof. by destruct l. Qed.

Lemma truthy_set_false (s : gset str) : truthy_set s = false ↔ s = ∅.
Proof.
  unfold truthy_set. rewrite truthy_false. split.
  - by intros ?%elements_empty_inv%leibniz_equiv.
  - intros ->. apply elements_empty.
Qed.

(** The verdict is a function of the six finding collections: it is "pass"
    exactly when all of them are empty. *)
Lemma verdict_pass f : verdict (issues_of f) = LAllPassed ↔ no_findings f.
Proof.
  unfold no_findings, issues_of, collect_issues, verdict.
  rewrite <-!truthy_false, <-!truthy_set_false.
  destruct (truthy (de_duplicates f)), (truthy (en_duplicates f)),
    (truthy_set (only_de f)), (truthy_set (only_en f)),
    (truthy (de_empty f)), (truthy (en_empty f)); simpl;
    intuition congruence.
Qed.

Lemma pass_only_last (l : list line) v :
  Forall (λ x, x ≠ LAllPassed) l →
  last (l ++ [v]) = Some v ∧ (LAllPassed ∈ l ++ [v] ↔ v = LAllPassed).
Proof.
  intros Hl. split; [apply last_snoc|].
  rewrite elem_of_app, list_elem_of_singleton, Forall_forall in *.
  split; [|by right]. intros [Hin|Heq]; [|done]. by destruct (Hl _ Hin).
Qed.

(** What [main] prints when both catalogs are loaded and neither is [None]:
    the report ends with the verdict on the findings collected, and no other
    line announces success. *)
Lemma main_report fs de_data en_data :
  fs de_path = Loaded de_data →
  fs en_path = Loaded en_data →
  is_none de_data = false →
  is_none en_data = false →
  last (main fs) = Some (verdict (issues_of (collected de_data en_data)))
  ∧ (LAllPassed ∈ main fs
     ↔ verdict (issues_of (collected de_data en_data)) = LAllPassed).
Proof.
  intros Hde Hen Hnde Hnen. unfold main, load_translations.
  rewrite Hde, Hen, Hnde, Hnen. cbn [orb app fst snd structural_diff].
  change (verdict (collect_issues _ _ _ _ _ _))
    with (verdict (issues_of (collected de_data en_data))).
  generalize (verdict (issues_of (collected de_data en_data))). intros v.
  generalize (check_duplicate_keys de_data [] ∅).1
    (check_duplicate_keys en_data [] ∅).1
    (check_empty_values de_data [] (lit "Deutsch"))
    (check_empty_values en_data [] (lit "Englisch")).
  generalize (get_all_keys de_data []) (get_all_keys en_data []).
  intros dk ek dd ed de ee.
  generalize ((list_to_set dk : gset str) ∖ list_to_set ek)
    ((list_to_set ek : gset str) ∖ list_to_set dk).
  intros od oe.
  assert (∀ (X Y : list line) a b c d,
            X ++ Y ++ [a; b; c; d; v] = (X ++ Y ++ [a; b; c; d]) ++ [v])
    as -> by (intros; by rewrite <-!app_assoc).
  rewrite !app_comm_cons. apply pass_only_last.
  repeat (apply Forall_cons; split; [by repeat case_match|]).
  rewrite !Forall_app. split_and!.
  - case_match; [|done]. by apply Forall_singleton.
  - case_match; [|done]. by apply Forall_singleton.
  - repeat (apply Forall_cons; split; [by repeat case_match|]). done.
Qed.

(** C6: in a run in which both catalogs load, "pass" is printed only if all
    six finding collections are empty; when the run reaches the report, its
    last line is the verdict, computed from the collections already held, and
    "pass" is printed exactly when all of them are empty. *)
Theorem verdict_pass_only_without_findings fs de_data en_data :
  fs de_path = Loaded de_data →
  fs en_path = Loaded en_data →
  let f := collected de_data en_data in
  (LAllPassed ∈ main fs → no_findings f)
  ∧ (is_none de_data = false → is_none en_data = false →
     last (main fs) = Some (verdict (issues_of f))
     ∧ (LAllPassed ∈ main fs ↔ no_findings f)).
Proof.
  intros Hde Hen f.
  assert (is_none de_data = false → is_none en_data = false →
     last (main fs) = Some (verdict (issues_of f))
     ∧ (LAllPassed ∈ main fs ↔ no_findings f)) as Hreport.
  { intros Hnde Hnen. rewrite <-verdict_pass. by apply main_report. }
  split; [|done]. intros Hpass.
  destruct (is_none de_data) eqn:Hnde, (is_none en_data) eqn:Hnen;
    try (by apply Hreport);
    unfold main, load_translations in Hpass;
    rewrite Hde, Hen, Hnde, Hnen in Hpass; cbn [orb app] in Hpass;
    by apply list_elem_of_singleton in Hpass.
Qed.

Lemma verdict_pass_only_without_findings_witness :
  let f := collected catalog_a catalog_b in
  last (main two_catalogs) = Some (verdict (issues_of f))
  ∧ (LAllPassed ∈ main two_catalogs ↔ no_findings f).
Proof.
  apply (proj2 (verdict_pass_only_without_findings two_catalogs
                  catalog_a catalog_b eq_refl eq_refl)); reflexivity.
Defined.

(** The scenario of the specification: one key only in the first catalog,
    one empty value, verdict "fail". *)
Example main_scenario :
  main two_catalogs
  = [LTitle; LKeyCount De 3; LKeyCount En 2; LDuplicatesTitle;
     LNoDuplicates De; LNoDuplicates En; LStructureTitle; LCommonCount 2;
     LOnlyCount De 1; LOnlyCount En 0; LOnly De [lit "a.c"]; LEmptyTitle;
     LEmpty De [lit "a.c"]; LNoEmpty En; LVerdictTitle;
     LProblems [IssueOnly De 1; IssueEmpty De 1]].
Proof. by vm_compute. Qed.

(** C8: when either catalog fails to load, the loader does not raise: it
    prints one diagnostic and returns [(None, None)]; the run then prints
    nothing after the diagnostic: no count, no check, no verdict. *)
Theorem load_failure_stops_run fs :
  (∃ e, fs de_path = LoadFailed e) ∨ (∃ e, fs en_path = LoadFailed e) →
  ∃ cause,
    load_translations fs = ([LLoadError cause], (JNull, JNull))
    ∧ main fs = [LTitle; LLoadError cause].
Proof.
  intros Hfail. unfold main, load_translations.
  destruct (fs de_path) as [de_data|e1] eqn:Hde;
    [destruct (fs en_path) as [en_data|e2] eqn:Hen|].
  - by destruct Hfail as [[e [=]]|[e [=]]].
  - by exists e2.
  - by exists e1.
Qed.

Lemma load_failure_stops_run_witness :
  ∃ cause,
    load_translations no_files = ([LLoadError cause], (JNull, JNull))
    ∧ main no_files = [LTitle; LLoadError cause].
Proof.
  apply load_failure_stops_run. left.
  by exists (lit "No such file or directory").
Defined.

End run.

(** ** Further properties of the flattener *)

Section flattener_more.
Import Consistency.

(** Flattening below a prefix is flattening from the root and then putting
    the prefix and a ["."] in front of every path, provided the keys of the
    root mapping are not empty. *)
Theorem get_all_keys_prefix d prefix :
  prefix ≠ [] →
  top_keys_nonempty d = true →
  get_all_keys d prefix = (λ p, prefix ++ dot :: p) <$> get_all_keys d [].
Proof.
  intros Hp Htop. rewrite get_all_keys_join, get_all_keys_under by done.
  by rewrite <-list_fmap_compose.
Qed.

Lemma get_all_keys_prefix_witness :
  get_all_keys catalog_a (lit "menu")
  = (λ p, lit "menu" ++ dot :: p) <$> get_all_keys catalog_a [].
Proof. by apply get_all_keys_prefix. Defined.

(** In a catalog without repeated keys in any mapping, whose keys contain
    no ["."] and whose root keys are not empty, building the set of the
    flattened paths loses nothing: the key count [main] prints is the number
    of entries of the tree. *)
Theorem key_count_is_entry_count d :
  unique_keys d = true →
  dotfree_keys d = true →
  top_keys_nonempty d = true →
  size (list_to_set (get_all_keys d []) : gset str) = length (nodes d).
Proof.
  intros Hu Hd Ht. rewrite size_list_to_set by (by apply get_all_keys_NoDup).
  apply get_all_keys_length.
Qed.

Lemma key_count_is_entry_count_witness :
  size (list_to_set (get_all_keys catalog_a []) : gset str)
  = length (nodes catalog_a).
Proof. by apply key_count_is_entry_count. Defined.

Lemma reordered_is_dict d d' : reordered d d' → is_dict d' = is_dict d.
Proof. by destruct 1. Qed.

(** Reordering the entries of the mappings of a catalog, at any depth,
    only permutes the flattened sequence: the key set and every count taken
    from it are the same. *)
Theorem get_all_keys_reordered d :
  ∀ d' prefix, reordered d d' →
    get_all_keys d prefix ≡ₚ get_all_keys d' prefix.
Proof.
  induction d as [d Hd|items IH] using json_dict_ind; intros d' prefix Hr.
  { inversion Hr; subst; [done|discriminate]. }
  inversion Hr as [|? moved items' Hall Hperm]; subst; [done|].
  simpl. rewrite <-Hperm. clear Hperm Hr items'.
  induction Hall as [|[key value] [key' value'] rest rest' [Hk Hv] _ IHall];
    [done|].
  simpl in Hk, Hv. subst key'.
  apply Forall_cons in IH as [IHv IHrest]. simpl in IHv.
  rewrite !bind_cons. apply Permutation_app; [|by apply IHall].
  apply Permutation_skip. rewrite (reordered_is_dict _ _ Hv).
  destruct (is_dict value); [by apply IHv|done].
Qed.

Lemma get_all_keys_reordered_witness :
  get_all_keys
    (JObj [(lit "a", JObj [(lit "b", JStr (lit "hello")); (lit "c", JStr [])])])
    []
  ≡ₚ get_all_keys
       (JObj [(lit "a", JObj [(lit "c", JStr []); (lit "b", JStr (lit "hello"))])])
       [].
Proof.
  apply get_all_keys_reordered.
  eapply reordered_obj; [|reflexivity].
  constructor; [|constructor]. split; [reflexivity|]. simpl.
  eapply reordered_obj;
    [|apply (Permutation_swap (lit "c", JStr []) (lit "b", JStr (lit "hello")) [])].
  repeat constructor.
Defined.

End flattener_more.

(** ** Further properties of the duplicate-key walk *)

Section duplicates_more.
Import Consistency.

Lemma size_list_to_set_snoc (before : list str) x :
  size (list_to_set (before ++ [x]) : gset str)
  = if decide (x ∈ before) then size (list_to_set before : gset str)
    else S (size (list_to_set before : gset str)).
Proof.
  rewrite list_to_set_app_L.
  change (list_to_set [x]) with ({[x]} ∪ (∅ : gset str)).
  rewrite (right_id_L ∅ (∪)), (comm_L (∪)).
  destruct (decide (x ∈ before)) as [Hin|Hin].
  - f_equal. apply subseteq_union_1_L, singleton_subseteq_l.
    by apply elem_of_list_to_set.
  - rewrite size_union, size_singleton; [done|].
    apply disjoint_singleton_l. by rewrite elem_of_list_to_set.
Qed.

Lemma earlier_repeats_length before l :
  (length (earlier_repeats before l)
   + size (list_to_set (before ++ l) : gset str)
   = size (list_to_set before : gset str) + length l)%nat.
Proof.
  revert before. induction l as [|x l IH]; intros before; simpl.
  { by rewrite app_nil_r. }
  rewrite length_app.
  assert (before ++ x :: l = (before ++ [x]) ++ l) as ->
    by (by rewrite <-app_assoc).
  pose proof (IH (before ++ [x])) as Hrest.
  rewrite size_list_to_set_snoc in Hrest.
  destruct (decide (x ∈ before)); simpl; lia.
Qed.

(** The number of duplicate findings and the number of distinct key paths
    add up to the number of paths met: every path met is either new or
    reported. *)
Theorem duplicates_and_distinct_keys d prefix :
  (length (check_duplicate_keys d prefix ∅).1
   + size (list_to_set (get_all_keys d prefix) : gset str)
   = length (get_all_keys d prefix))%nat.
Proof.
  destruct (check_duplicate_keys_walk d prefix ∅ []) as [-> _]; [done|].
  apply (earlier_repeats_length [] (get_all_keys d prefix)).
Qed.

(** The walk on a table that already holds paths: findings and final
    table. *)
Lemma check_duplicate_keys_on_table (d : json) (prefix : str)
    (found : gmap str bool) :
  (check_duplicate_keys d prefix found).1
  = earlier_repeats (elements (dom found)) (get_all_keys d prefix)
  ∧ dom (check_duplicate_keys d prefix found).2
    = dom found ∪ list_to_set (get_all_keys d prefix).
Proof.
  destruct (check_duplicate_keys_walk d prefix found (elements (dom found)))
    as [Hfindings Htable]; [by rewrite list_to_set_elements_L|].
  split; [done|].
  by rewrite Htable, list_to_set_app_L, list_to_set_elements_L.
Qed.

(** The table of seen paths only grows: after a walk it holds what it held
    before and every path of the flattened sequence, whatever was
    reported. *)
Theorem check_duplicate_keys_table (d : json) (prefix : str)
    (found : gmap str bool) :
  dom (check_duplicate_keys d prefix found).2
  = dom found ∪ list_to_set (get_all_keys d prefix).
Proof. apply check_duplicate_keys_on_table. Qed.

Lemma earlier_repeats_all before l :
  (∀ x, x ∈ l → x ∈ before) → earlier_repeats before l = l.
Proof.
  revert before. induction l as [|x l IH]; intros before Hall; [done|].
  simpl. rewrite decide_True by (apply Hall; by left). simpl. f_equal.
  apply IH. intros y Hy. apply elem_of_app. left. apply Hall. by right.
Qed.

(** Walking a tree again with the table left by a first walk reports every
    path of the tree: the table must be fresh for each run, as the default
    argument of [check_duplicate_keys] makes it. *)
Theorem check_duplicate_keys_reused_table (d : json) (prefix : str)
    (found : gmap str bool) :
  (check_duplicate_keys d prefix (check_duplicate_keys d prefix found).2).1
  = get_all_keys d prefix.
Proof.
  destruct (check_duplicate_keys_on_table d prefix
              (check_duplicate_keys d prefix found).2) as [-> _].
  apply earlier_repeats_all. intros x Hx.
  apply elem_of_elements.
  destruct (check_duplicate_keys_on_table d prefix found) as [_ ->].
  apply elem_of_union. right. by apply elem_of_list_to_set.
Qed.

End duplicates_more.

(** ** Further properties of the empty-value walk and of the resolver *)

Section resolver_more.
Import Consistency ImportKeys.

(** Every empty-value finding is a path of the flattened sequence, and the
    findings come in the order of that sequence. *)
Theorem check_empty_values_sublist d prefix lang_name :
  check_empty_values d prefix lang_name `sublist_of` get_all_keys d prefix.
Proof.
  apply check_empty_values_flattened.
Qed.

(** The value the dotted path of a node resolves to, in a catalog whose keys
    contain no ["."]. *)
Lemma get_nested_value_node C chain v :
  unique_keys C = true →
  dotfree_keys C = true →
  (chain, v) ∈ nodes C →
  get_nested_value C (join_dot chain) = v.
Proof.
  intros Hu Hd Hin. unfold get_nested_value.
  rewrite split_join;
    [|by eapply nodes_chain_nonempty|by eapply nodes_dotfree].
  by rewrite (get_nested_loop_index _ _ _ (nodes_index C Hu _ _ Hin)).
Qed.

(** The required-key audit does not see empty values: in a catalog whose
    keys contain no ["."] and whose root keys are not empty, a path reported
    by the empty-value walk resolves to a whitespace-only string, which is
    not [None], so the audit records it as found. *)
Theorem empty_value_is_found C lang_name p :
  unique_keys C = true →
  dotfree_keys C = true →
  top_keys_nonempty C = true →
  p ∈ check_empty_values C [] lang_name →
  ∃ s, get_nested_value C p = JStr s ∧ strip s = []
       ∧ is_none (get_nested_value C p) = false.
Proof.
  intros Hu Hd Ht Hp. rewrite check_empty_values_join in Hp by done.
  apply list_elem_of_fmap in Hp as ([chain v] & -> & Hin).
  apply list_elem_of_filter in Hin as [Hw Hin]. simpl in *.
  rewrite (get_nested_value_node C chain v) by done.
  destruct v as [| | | |s| |]; try done. exists s.
  split_and!; [done| |done]. by apply strip_empty.
Qed.

Lemma empty_value_is_found_witness :
  ∃ s, get_nested_value catalog_a (lit "a.c") = JStr s ∧ strip s = []
       ∧ is_none (get_nested_value catalog_a (lit "a.c")) = false.
Proof.
  apply (empty_value_is_found catalog_a []); [reflexivity..|].
  vm_compute. constructor.
Defined.

Lemma split_dot_nonempty s : split_dot s ≠ [].
Proof.
  destruct s as [|c r]; simpl; [done|].
  destruct (decide (c = dot)); [done|]. by destruct (split_dot r).
Qed.

(** Joining the segments of a path gives the path back. *)
Lemma join_split s : join_dot (split_dot s) = s.
Proof.
  induction s as [|c r IH]; [done|]. simpl.
  pose proof (split_dot_nonempty r) as Hne.
  destruct (decide (c = dot)) as [->|Hc].
  - destruct (split_dot r) as [|h t]; [done|]. simpl in *. by rewrite IH.
  - destruct (split_dot r) as [|h t]; [done|]. simpl in *.
    destruct t; by rewrite <-IH.
Qed.

(** Indexing along a chain ends on a node of the direct traversal. *)
Lemma index_path_node d chain v :
  index_path d chain (Some v) → chain ≠ [] → (chain, v) ∈ nodes d.
Proof.
  intros Hidx. remember (Some v) as r eqn:Hr. revert v Hr.
  induction Hidx as [d|d key keys Hd|items key keys Hget
                     |items key keys value r Hget Hidx IH];
    intros v Hr Hne; try done.
  apply elem_of_nodes_obj. exists key, value.
  split; [by apply dict_get_elem_of|].
  destruct keys as [|k keys].
  - left. inversion Hidx; by simplify_eq.
  - right. exists (k :: keys). split; [done|]. by apply IH.
Qed.

(** The flattener emits the dotted path of every node whose first key is
    not empty. *)
Lemma node_flattened C key below v :
  key ≠ [] → (key :: below, v) ∈ nodes C →
  join_dot (key :: below) ∈ get_all_keys C [].
Proof.
  intros Hk Hin. destruct C as [| | | | | |items];
    try by apply elem_of_nil in Hin.
  apply elem_of_nodes_obj in Hin as (k & value & Hitem & H).
  simpl. apply list_elem_of_bind. exists (k, value). split; [|done].
  simpl. destruct H as [[Heq ->]|(chain & Heq & Hin)]; simplify_eq;
    [by left|].
  right. destruct (is_dict value) eqn:Hv;
    [|by rewrite nodes_not_dict in Hin by done; apply elem_of_nil in Hin].
  rewrite get_all_keys_under by done. apply list_elem_of_fmap.
  exists (chain, v). split; [|done]. simpl. apply join_dot_cons_cons.
  by eapply nodes_chain_nonempty.
Qed.

(** Every path the resolver finds is a path of the flattened sequence,
    unless it is empty or starts with a ["."]: the keys the audit records as
    found are among the keys the consistency check counts. *)
Theorem resolved_path_is_flattened C p :
  p ≠ [] →
  head p ≠ Some dot →
  get_nested_value C p ≠ JNull →
  p ∈ get_all_keys C [].
Proof.
  intros Hp Hhead Hfound.
  apply get_nested_value_found in Hfound as (v & Hidx & _).
  pose proof (index_path_node _ _ _ Hidx (split_dot_nonempty p)) as Hin.
  rewrite <-(join_split p).
  destruct (split_dot p) as [|key below] eqn:Hs;
    [by destruct (split_dot_nonempty p)|].
  apply (node_flattened C key below v); [|done].
  destruct p as [|c r]; [done|]. simpl in Hs.
  destruct (decide (c = dot)) as [->|]; [done|].
  destruct (split_dot r); by simplify_eq.
Qed.

Lemma resolved_path_is_flattened_witness :
  lit "a.b" ∈ get_all_keys catalog_a [].
Proof. by apply resolved_path_is_flattened. Defined.

(** On a document whose root is not a mapping the resolver finds nothing,
    whatever the path. *)
Theorem get_nested_value_not_mapping data key_path :
  is_dict data = false → get_nested_value data key_path = JNull.
Proof.
  intros Hd. unfold get_nested_value.
  pose proof (split_dot_nonempty key_path).
  destruct (split_dot key_path); [done|]. by destruct data.
Qed.

Lemma get_nested_value_not_mapping_witness :
  get_nested_value (JArr [JStr (lit "x")]) (lit "0") = JNull.
Proof. by apply get_nested_value_not_mapping. Defined.

End resolver_more.

(** ** Further properties of the required-key audit *)

Section audit_more.
Import ImportKeys.

(** The loop over the required keys prints one line per key, in order, and
    sorts the keys, in order, into the found and the missing ones. *)
Lemma check_keys_filter data required :
  check_keys data required
  = (key_line data <$> required,
     (filter (λ key, is_none (get_nested_value data key) = false) required,
      filter (λ key, is_none (get_nested_value data key) = true) required)).
Proof.
  induction required as [|key rest IH]; [done|].
  simpl. rewrite IH, !filter_cons. unfold key_line.
  by destruct (is_none (get_nested_value data key)) eqn:Hnone.
Qed.

Lemma filter_split_length {A} (f : A → bool) (l : list A) :
  (length (filter (λ x, f x = false) l) + length (filter (λ x, f x = true) l)
   = length l)%nat.
Proof.
  induction l as [|x l IH]; [done|]. rewrite !filter_cons.
  destruct (f x); simpl; lia.
Qed.

Lemma report_filter data required lang_name :
  report data required lang_name
  = ([LFileTitle lang_name] ++ (key_line data <$> required)
     ++ [LSummary lang_name
           (length (filter (λ key, is_none (get_nested_value data key) = false)
                      required))
           (length required)
           (length (filter (λ key, is_none (get_nested_value data key) = true)
                      required))],
     (filter (λ key, is_none (get_nested_value data key) = false) required,
      filter (λ key, is_none (get_nested_value data key) = true) required)).
Proof. unfold report. by rewrite check_keys_filter. Qed.

(** For a catalog that loads, the report is a title, one line per required
    key in the order of the list, and a summary.  When every line can be
    printed, the audit prints the report and returns the found and the missing
    keys, in the order of the list; when the [print] of a line raises, the
    output stops before that line, a diagnostic follows, and every required
    key is returned as missing.  The numbers of found and of missing keys add
    up to the number of required keys. *)
Theorem check_translation_file_loaded required fs file_path lang_name data :
  fs file_path = Loaded data →
  let found :=
    filter (λ key, is_none (get_nested_value data key) = false) required in
  let missing :=
    filter (λ key, is_none (get_nested_value data key) = true) required in
  let lines :=
    [LFileTitle lang_name] ++ (key_line data <$> required)
    ++ [LSummary lang_name (length found) (length required) (length missing)] in
  ((print_all lines).2 = None →
   check_translation_file required fs file_path lang_name
   = (lines, (found, missing)))
  ∧ (∀ l, (print_all lines).2 = Some l →
       check_translation_file required fs file_path lang_name
       = ((print_all lines).1 ++ [LPrintFailed file_path l], ([], required)))
  ∧ (length found + length missing = length required)%nat.
Proof.
  intros Hload found missing lines.
  pose proof (report_filter data required lang_name) as Hreport.
  split_and!.
  - intros Hprint.
    rewrite (check_translation_file_printed _ _ _ _ data Hload);
      [apply Hreport|by rewrite Hreport].
  - intros l Hprint.
    rewrite (check_translation_file_print_failed _ _ _ _ data l);
      [by rewrite Hreport|done|by rewrite Hreport].
  - apply (filter_split_length (λ key, is_none (get_nested_value data key))).
Qed.

Lemma check_translation_file_loaded_witness :
  check_translation_file [lit "x.y"; lit "x.z"] (λ _, Loaded catalog_xy)
    de_path (lit "Deutsche")
  = ([LFileTitle (lit "Deutsche"); LFound (lit "x.y") (JStr (lit "ok"));
      LMissing (lit "x.z"); LSummary (lit "Deutsche") 1 2 1],
     ([lit "x.y"], [lit "x.z"])).
Proof.
  by apply (proj1 (check_translation_file_loaded [lit "x.y"; lit "x.z"]
                     (λ _, Loaded catalog_xy) de_path (lit "Deutsche")
                     catalog_xy eq_refl)).
Defined.

(** Whether the catalog loads or not, and whether its report can be printed
    or not, every required key is returned either as found or as missing,
    never as both. *)
Lemma found_or_missing required fs file_path lang_name key :
  let r := (check_translation_file required fs file_path lang_name).2 in
  (key ∈ r.1 ∨ key ∈ r.2 ↔ key ∈ required) ∧ ¬ (key ∈ r.1 ∧ key ∈ r.2).
Proof.
  unfold check_translation_file.
  destruct (fs file_path) as [data|e]; simpl;
    [|rewrite elem_of_nil; tauto].
  rewrite report_filter.
  destruct (print_all _) as [printed [failed|]]; simpl;
    [rewrite elem_of_nil; tauto|].
  rewrite !list_elem_of_filter.
  destruct (is_none (get_nested_value data key)); intuition congruence.
Qed.

(** The four groups [main] forms from the two audits (found in both, found
    only in German, found only in English, missing in both) are pairwise
    disjoint and together are the required keys, also when a catalog could
    not be read. *)
Theorem audit_groups_partition required fs :
  let de := (check_translation_file required fs de_path (lit "Deutsche")).2 in
  let en := (check_translation_file required fs en_path (lit "Englische")).2 in
  let de_found : gset str := list_to_set de.1 in
  let en_found : gset str := list_to_set en.1 in
  let both_found := de_found ∩ en_found in
  let only_de := de_found ∖ en_found in
  let only_en := en_found ∖ de_found in
  let both_missing : gset str := list_to_set de.2 ∩ list_to_set en.2 in
  both_found ∪ only_de ∪ only_en ∪ both_missing = list_to_set required
  ∧ both_found ## only_de ∧ both_found ## only_en
  ∧ both_found ## both_missing ∧ only_de ## only_en
  ∧ only_de ## both_missing ∧ only_en ## both_missing.
Proof.
  intros de en de_found en_found both_found only_de only_en both_missing.
  assert (∀ key,
    (key ∈ de.1 ∨ key ∈ de.2 ↔ key ∈ required) ∧ ¬ (key ∈ de.1 ∧ key ∈ de.2))
    as Hde by (intros key; apply found_or_missing).
  assert (∀ key,
    (key ∈ en.1 ∨ key ∈ en.2 ↔ key ∈ required) ∧ ¬ (key ∈ en.1 ∧ key ∈ en.2))
    as Hen by (intros key; apply found_or_missing).
  subst de_found en_found both_found only_de only_en both_missing.
  generalize dependent de. generalize dependent en.
  intros en Hen de Hde. split_and!.
  - apply set_eq. intros key.
    rewrite !elem_of_union, !elem_of_intersection, !elem_of_difference,
      !elem_of_list_to_set.
    specialize (Hde key). specialize (Hen key).
    destruct (decide (key ∈ de.1)), (decide (key ∈ en.1)); tauto.
  - apply elem_of_disjoint. intros key.
    rewrite elem_of_intersection, elem_of_difference. tauto.
  - apply elem_of_disjoint. intros key.
    rewrite elem_of_intersection, elem_of_difference. tauto.
  - apply elem_of_disjoint. intros key.
    rewrite !elem_of_intersection, !elem_of_list_to_set.
    specialize (Hde key). tauto.
  - apply elem_of_disjoint. intros key. rewrite !elem_of_difference. tauto.
  - apply elem_of_disjoint. intros key.
    rewrite elem_of_intersection, elem_of_difference, !elem_of_list_to_set.
    specialize (Hde key). tauto.
  - apply elem_of_disjoint. intros key.
    rewrite elem_of_intersection, elem_of_difference, !elem_of_list_to_set.
    specialize (Hen key). tauto.
Qed.

End audit_more.

(** ** Further properties of the consistency run *)

Section run_more.
Import Consistency.

(** The counts [main] prints agree: the keys of a catalog are the common
    keys and the keys only that catalog has. *)
Theorem key_counts_add_up (de_keys en_keys : gset str) :
  let parts := structural_diff de_keys en_keys in
  size de_keys = (size parts.2 + size parts.1.1)%nat
  ∧ size en_keys = (size parts.2 + size parts.1.2)%nat.
Proof.
  simpl. split.
  - rewrite <-size_union.
    + f_equal. apply set_eq. intros x.
      rewrite elem_of_union, elem_of_intersection, elem_of_difference.
      destruct (decide (x ∈ en_keys)); tauto.
    + apply elem_of_disjoint. intros x.
      rewrite elem_of_intersection, elem_of_difference. tauto.
  - rewrite <-size_union.
    + f_equal. apply set_eq. intros x.
      rewrite elem_of_union, elem_of_intersection, elem_of_difference.
      destruct (decide (x ∈ de_keys)); tauto.
    + apply elem_of_disjoint. intros x.
      rewrite elem_of_intersection, elem_of_difference. tauto.
Qed.

(** Neither catalog has a key of its own exactly when the two catalogs have
    the same set of key paths. *)
Theorem no_exclusive_keys_iff (de_keys en_keys : gset str) :
  (structural_diff de_keys en_keys).1.1 = ∅
  ∧ (structural_diff de_keys en_keys).1.2 = ∅
  ↔ de_keys = en_keys.
Proof.
  simpl. split.
  - intros [Hde Hen]. apply set_eq. intros x.
    assert (x ∉ de_keys ∖ en_keys) as H1 by (rewrite Hde; apply not_elem_of_empty).
    assert (x ∉ en_keys ∖ de_keys) as H2 by (rewrite Hen; apply not_elem_of_empty).
    rewrite elem_of_difference in H1, H2.
    destruct (decide (x ∈ de_keys)), (decide (x ∈ en_keys)); tauto.
  - intros ->. by rewrite difference_diag_L.
Qed.

(** Exchanging the two catalogs exchanges the two exclusive parts and keeps
    the common part. *)
Theorem structural_diff_swap (de_keys en_keys : gset str) :
  structural_diff en_keys de_keys
  = ((structural_diff de_keys en_keys).1.2,
     (structural_diff de_keys en_keys).1.1,
     (structural_diff de_keys en_keys).2).
Proof.
  unfold structural_diff. simpl. f_equal. apply (comm_L intersection).
Qed.

Lemma str_leb_total a b : str_leb a b = true ∨ str_leb b a = true.
Proof.
  revert b. induction a as [|x a IH]; intros [|y b]; simpl; auto.
  destruct (IH b) as [H|H]; rewrite H;
    destruct (x <? y) eqn:H1, (y <? x) eqn:H2, (x =? y) eqn:H3,
      (y =? x) eqn:H4; simpl; auto;
    rewrite ?N.ltb_lt, ?N.ltb_ge, ?N.eqb_eq, ?N.eqb_neq in *; lia.
Qed.

Lemma str_leb_trans a b c :
  str_leb a b = true → str_leb b c = true → str_leb a c = true.
Proof.
  revert b c. induction a as [|x a IH]; intros [|y b] [|z c]; simpl;
    try done.
  rewrite !orb_true_iff, !andb_true_iff, !N.ltb_lt, !N.eqb_eq.
  intros [Hxy|[-> Hab]] [Hyz|[-> Hbc]].
  - left. lia.
  - by left.
  - by left.
  - right. split; [done|]. by eapply IH.
Qed.

#[local] Instance str_leb_rel_total : Total (λ a b : str, Is_true (str_leb a b)).
Proof.
  intros a b. destruct (str_leb_total a b) as [H|H]; rewrite H; simpl; auto.
Qed.

#[local] Instance str_leb_rel_trans :
  Transitive (λ a b : str, Is_true (str_leb a b)).
Proof.
  intros a b c Hab%Is_true_true Hbc%Is_true_true.
  apply Is_true_true. by eapply str_leb_trans.
Qed.

(** The exclusive keys of a catalog are listed in ascending code-point
    order, each key of the set once and nothing else. *)
Theorem sorted_ascending (s : gset str) :
  StronglySorted (λ a b, Is_true (str_leb a b)) (sorted s)
  ∧ NoDup (sorted s)
  ∧ ∀ key, key ∈ sorted s ↔ key ∈ s.
Proof.
  unfold sorted. split_and!.
  - apply (StronglySorted_merge_sort _).
  - rewrite merge_sort_Permutation. apply NoDup_elements.
  - intros key. rewrite merge_sort_Permutation. apply elem_of_elements.
Qed.

Lemma truthy_length {A} (l : list A) : truthy l = true → (0 < length l)%nat.
Proof. destruct l; [done|]. simpl. lia. Qed.

(** The summary never announces a check with zero findings, and holds at
    most one line per check and catalog. *)
Theorem collect_issues_counts (de_dups en_dups : list str)
    (only_de only_en : gset str) (de_empty en_empty : list str) :
  let issues :=
    collect_issues de_dups en_dups only_de only_en de_empty en_empty in
  Forall (λ i, (0 < issue_count i)%nat) issues ∧ (length issues ≤ 6)%nat.
Proof.
  unfold collect_issues, truthy_set. simpl.
  change (size only_de) with (length (elements only_de)).
  change (size only_en) with (length (elements only_en)).
  pose proof (truthy_length de_dups). pose proof (truthy_length en_dups).
  pose proof (truthy_length (elements only_de)).
  pose proof (truthy_length (elements only_en)).
  pose proof (truthy_length de_empty). pose proof (truthy_length en_empty).
  destruct (truthy de_dups), (truthy en_dups), (truthy (elements only_de)),
    (truthy (elements only_en)), (truthy de_empty), (truthy en_empty);
    simpl; (split; [|lia]); repeat constructor; simpl; auto.
Qed.

(** A catalog file that holds the JSON value [null] loads as [None]: the
    run stops after the title, with no diagnostic and no report. *)
Theorem main_null_catalog fs de_data en_data :
  fs de_path = Loaded de_data →
  fs en_path = Loaded en_data →
  de_data = JNull ∨ en_data = JNull →
  load_translations fs = ([], (de_data, en_data)) ∧ main fs = [LTitle].
Proof.
  intros Hde Hen Hnull. unfold main, load_translations. rewrite Hde, Hen.
  split; [done|]. destruct Hnull as [->| ->]; [done|].
  by rewrite orb_true_r.
Qed.

Lemma main_null_catalog_witness :
  load_translations (λ _, Loaded JNull) = ([], (JNull, JNull))
  ∧ main (λ _, Loaded JNull) = [LTitle].
Proof. apply main_null_catalog; auto. Defined.

Lemma walks_not_mapping d :
  is_dict d = false →
  get_all_keys d [] = [] ∧ (check_duplicate_keys d [] ∅).1 = []
  ∧ ∀ lang_name, check_empty_values d [] lang_name = [].
Proof. by destruct d. Qed.

(** A catalog whose root is not a mapping (an array, a string, a number) is
    not rejected: the run reports on it as on the empty mapping. *)
Theorem main_not_mapping fs de_data en_data :
  fs de_path = Loaded de_data →
  fs en_path = Loaded en_data →
  is_dict de_data = false →
  is_none de_data = false →
  main fs = main (λ path, if decide (path = de_path) then Loaded (JObj [])
                          else fs path).
Proof.
  intros Hde Hen Hdict Hnone. unfold main, load_translations.
  rewrite Hde, decide_True by done.
  rewrite decide_False by (by vm_compute). rewrite Hen, Hnone.
  destruct (walks_not_mapping de_data Hdict) as (-> & -> & Hempty).
  by rewrite Hempty.
Qed.

Lemma main_not_mapping_witness :
  main (λ path, if decide (path = de_path) then Loaded (JArr [])
                else Loaded catalog_b)
  = main (λ path, if decide (path = de_path) then Loaded (JObj [])
                  else if decide (path = de_path) then Loaded (JArr [])
                       else Loaded catalog_b).
Proof.
  by apply (main_not_mapping
              (λ path, if decide (path = de_path) then Loaded (JArr [])
                       else Loaded catalog_b) (JArr []) catalog_b).
Defined.

End run_more.
